(** * stm32pio GUI: the [ProjectListItem] wrapper (src/stm32pio/gui/project.py)

    A shallow embedding of the Qt wrapper around a [Stm32pio] project: its
    fields, its single-thread worker pool, the background initialisation
    thread with its readiness handshake, the action slots and the
    finalizer.  Python methods are functions in a state-and-exception monad
    over a [World]; what threads and the outer world decide (the outcome of
    the [Stm32pio] constructor, of an action, of [project.state]) is an input
    carried by the label of a step.

    The item lives on the thread of its creator, the workers run on the
    thread of the pool: a signal of a worker reaches a slot of the item as
    a call posted to the creator's thread, which runs it when it gets to
    it. *)

From stdpp Require Import base strings list gmap.
From Stdlib Require Import ZArith Lia.

Local Open Scope string_scope.
Local Open Scope list_scope.

(** ** Collaborators that live outside project.py *)

(** [stm32pio.core.state.ProjectStage] is an enum defined outside
    project.py.  What project.py uses of it is taken as an interface: the
    member [UNDEFINED], the [name] of a member (an enum has no two members
    of one name) and its [__str__]. *)
Class ProjectStageEnum := {
  ProjectStage : Type;
  ProjectStage_eq_dec :: EqDecision ProjectStage;
  ProjectStage_countable :: Countable ProjectStage;
  UNDEFINED : ProjectStage;
  stage_name : ProjectStage → string;
  stage_name_inj :: Inj (=) (=) stage_name;
  stage_str : ProjectStage → string;
}.

(** What the platform fixes: the names [run] gets a worker for while there
    is no project, that is the methods of Python's [None], and the thread
    count a fresh [QThreadPool] starts with
    ([QThread.idealThreadCount()]). *)
Class Platform := {
  NoneType_hasattr : string → bool;
  idealThreadCount : Z;
}.

Module Py.

Inductive Exception :=
| AttributeError (attr : string)
| KeyError (key : string)
| NoSectionError (section : string).   (* configparser *)

Inductive Result (A : Type) :=
| Ok (a : A)
| Raise (e : Exception).
Arguments Ok {A} a.
Arguments Raise {A} e.

Definition raised {A} (r : Result A) : bool :=
  match r with Ok _ => false | Raise _ => true end.

End Py.
Export Py.

(** ** QThreadPool, as project.py drives it *)

(** A [Worker] (stm32pio.gui.util) as the pool sees it: the runnable built
    by [run] for one action. *)
Record Worker := {
  action_name : string;
  action_args : list string;
}.

Module QThreadPool.

Record t := {
  maxThreadCount : Z;
  expiryTimeout : Z;
  active : list Worker;   (* runnables that own a thread *)
  queue : list Worker;    (* runnables not yet started, oldest first *)
}.

Definition new `{Platform} : t :=
  {| maxThreadCount := idealThreadCount; expiryTimeout := 30000%Z;
     active := []; queue := [] |}.

Definition setMaxThreadCount (n : Z) (p : t) : t :=
  {| maxThreadCount := n; expiryTimeout := expiryTimeout p;
     active := active p; queue := queue p |}.

Definition setExpiryTimeout (ms : Z) (p : t) : t :=
  {| maxThreadCount := maxThreadCount p; expiryTimeout := ms;
     active := active p; queue := queue p |}.

Definition activeThreadCount (p : t) : Z := Z.of_nat (length (active p)).

(** [start]: the runnable gets a thread unless that would exceed
    [maxThreadCount]; otherwise it joins the run queue.  The boolean tells
    whether it began to run. *)
Definition start (w : Worker) (p : t) : t * bool :=
  if (activeThreadCount p <? maxThreadCount p)%Z
  then ({| maxThreadCount := maxThreadCount p; expiryTimeout := expiryTimeout p;
           active := active p ++ [w]; queue := queue p |}, true)
  else ({| maxThreadCount := maxThreadCount p; expiryTimeout := expiryTimeout p;
           active := active p; queue := queue p ++ [w] |}, false).

(** [clear]: drops the runnables that are not yet started. *)
Definition clear (p : t) : t :=
  {| maxThreadCount := maxThreadCount p; expiryTimeout := expiryTimeout p;
     active := active p; queue := [] |}.

(** The oldest running runnable returns: its thread is free again. *)
Definition release (p : t) : t :=
  {| maxThreadCount := maxThreadCount p; expiryTimeout := expiryTimeout p;
     active := tail (active p); queue := queue p |}.

(** A free thread takes the head of the run queue, if there is one. *)
Definition take_next (p : t) : t * option Worker :=
  match queue p with
  | w :: rest =>
      if (activeThreadCount p <? maxThreadCount p)%Z
      then ({| maxThreadCount := maxThreadCount p; expiryTimeout := expiryTimeout p;
               active := active p ++ [w]; queue := rest |}, Some w)
      else (p, None)
  | [] => (p, None)
  end.

(** [waitForDone(-1)] returns once no runnable runs or waits. *)
Definition idle (p : t) : bool :=
  match active p, queue p with
  | [], [] => true
  | _, _ => false
  end.

End QThreadPool.

(** ** The project object and the log relay *)

(** Modelled from the spec: the [Stm32pio] project object (module
    stm32pio.core.project is missing), reduced to what the wrapper reads of
    it: [path.name], [str(project)], the operation registry that
    [getattr] resolves action names in (its methods), and
    [config.items(section)], which is [None] for a section the config does
    not have. *)
Record Stm32pio := {
  path_name : string;
  project_str : string;
  has_action : string → bool;
  config_items : string → option (gmap string string);
}.

(** Modelled from the spec: the log relay [LoggingWorker] (module
    stm32pio.gui.log is missing): two events and a thread that can be
    joined. *)
Record LoggingWorker := {
  project_id : positive;
  stopped : bool;
  can_flush_log : bool;
  thread_finished : bool;
}.

(** [weakref.finalize(self, at_exit, workers_pool, logging_worker, name)]:
    alive until it is called; the pool and the relay are shared with the
    item, the name is the string computed at registration. *)
Record finalize := {
  alive : bool;
  finalize_name : string;
}.

(** ** The item, its signals and the world around it *)

Record ProjectListItem := {
  _from_startup : bool;
  logging_worker : LoggingWorker;
  workers_pool : QThreadPool.t;
  _current_action : string;
  _last_action_succeed : bool;
  project : option Stm32pio;
  _name : string;
  _state : gmap string bool;
  _current_stage : string;
  qml_ready : bool;                 (* threading.Event *)
  _finalizer : option finalize;
}.

Section Setters.
Variable s : ProjectListItem.

Definition set_logging_worker (v : LoggingWorker) : ProjectListItem :=
  {| _from_startup := _from_startup s; logging_worker := v;
     workers_pool := workers_pool s; _current_action := _current_action s;
     _last_action_succeed := _last_action_succeed s; project := project s;
     _name := _name s; _state := _state s; _current_stage := _current_stage s;
     qml_ready := qml_ready s; _finalizer := _finalizer s |}.

Definition set_workers_pool (v : QThreadPool.t) : ProjectListItem :=
  {| _from_startup := _from_startup s; logging_worker := logging_worker s;
     workers_pool := v; _current_action := _current_action s;
     _last_action_succeed := _last_action_succeed s; project := project s;
     _name := _name s; _state := _state s; _current_stage := _current_stage s;
     qml_ready := qml_ready s; _finalizer := _finalizer s |}.

Definition set_current_action (v : string) : ProjectListItem :=
  {| _from_startup := _from_startup s; logging_worker := logging_worker s;
     workers_pool := workers_pool s; _current_action := v;
     _last_action_succeed := _last_action_succeed s; project := project s;
     _name := _name s; _state := _state s; _current_stage := _current_stage s;
     qml_ready := qml_ready s; _finalizer := _finalizer s |}.

Definition set_last_action_succeed (v : bool) : ProjectListItem :=
  {| _from_startup := _from_startup s; logging_worker := logging_worker s;
     workers_pool := workers_pool s; _current_action := _current_action s;
     _last_action_succeed := v; project := project s;
     _name := _name s; _state := _state s; _current_stage := _current_stage s;
     qml_ready := qml_ready s; _finalizer := _finalizer s |}.

Definition set_project (v : option Stm32pio) : ProjectListItem :=
  {| _from_startup := _from_startup s; logging_worker := logging_worker s;
     workers_pool := workers_pool s; _current_action := _current_action s;
     _last_action_succeed := _last_action_succeed s; project := v;
     _name := _name s; _state := _state s; _current_stage := _current_stage s;
     qml_ready := qml_ready s; _finalizer := _finalizer s |}.

Definition set_name (v : string) : ProjectListItem :=
  {| _from_startup := _from_startup s; logging_worker := logging_worker s;
     workers_pool := workers_pool s; _current_action := _current_action s;
     _last_action_succeed := _last_action_succeed s; project := project s;
     _name := v; _state := _state s; _current_stage := _current_stage s;
     qml_ready := qml_ready s; _finalizer := _finalizer s |}.

Definition set_state (v : gmap string bool) : ProjectListItem :=
  {| _from_startup := _from_startup s; logging_worker := logging_worker s;
     workers_pool := workers_pool s; _current_action := _current_action s;
     _last_action_succeed := _last_action_succeed s; project := project s;
     _name := _name s; _state := v; _current_stage := _current_stage s;
     qml_ready := qml_ready s; _finalizer := _finalizer s |}.

Definition set_current_stage (v : string) : ProjectListItem :=
  {| _from_startup := _from_startup s; logging_worker := logging_worker s;
     workers_pool := workers_pool s; _current_action := _current_action s;
     _last_action_succeed := _last_action_succeed s; project := project s;
     _name := _name s; _state := _state s; _current_stage := v;
     qml_ready := qml_ready s; _finalizer := _finalizer s |}.

Definition set_qml_ready (v : bool) : ProjectListItem :=
  {| _from_startup := _from_startup s; logging_worker := logging_worker s;
     workers_pool := workers_pool s; _current_action := _current_action s;
     _last_action_succeed := _last_action_succeed s; project := project s;
     _name := _name s; _state := _state s; _current_stage := _current_stage s;
     qml_ready := v; _finalizer := _finalizer s |}.

Definition set_finalizer (v : option finalize) : ProjectListItem :=
  {| _from_startup := _from_startup s; logging_worker := logging_worker s;
     workers_pool := workers_pool s; _current_action := _current_action s;
     _last_action_succeed := _last_action_succeed s; project := project s;
     _name := _name s; _state := _state s; _current_stage := _current_stage s;
     qml_ready := qml_ready s; _finalizer := v |}.
End Setters.

(** The Qt signals of the class. *)
Inductive Signal :=
| logAdded (message : string) (level : Z)
| initialized
| nameChanged
| stateChanged
| stageChanged
| actionStarted (action : string)
| actionFinished (action : string) (success : bool).

Global Instance Signal_eq_dec : EqDecision Signal.
Proof. solve_decision. Defined.

(** Calls into the collaborators that leave no trace in the item's own
    fields, in call order. *)
Inductive Call :=
| log_current_exception              (* stm32pio.core.logging, on the item's logger *)
| waitForDone (msecs : Z)            (* workers_pool *)
| stopped_set                        (* logging_worker.stopped.set() *)
| thread_wait                        (* logging_worker.thread.wait() *)
| module_logger_info (message : string).

(** The keyword arguments of the [Stm32pio] constructor, as far as
    [__init__] looks into them: the dict [instance_options], where the
    logger of the item goes, and the rest. *)
Inductive InstanceOption :=
| option_logger (project_id : positive)   (* ProjectLoggerAdapter of the item *)
| option_other (value : string).

Record Kwargs := {
  instance_options : option (gmap string InstanceOption);
  other_kwargs : gmap string string;
}.

(** The initialisation thread started by [__init__]: not yet scheduled,
    blocked in [qml_ready.wait()], or returned. *)
Inductive InitThread :=
| init_scheduled (args : list string) (kwargs : Kwargs)
| init_waiting
| init_returned.

(** The finalizer callback: not called, blocked in [waitForDone(-1)], or
    returned. *)
Inductive ExitHandler :=
| exit_pending
| exit_waiting (name : string)
| exit_returned.

(** A signal of a worker on its way to the item: the worker has emitted
    it on the pool thread, the slots connected to it have not run yet. *)
Inductive Posted :=
| posted_started (worker : Worker)
| posted_finished (worker : Worker) (success : bool).

(** Every emission of the item is recorded with the item as it is at that
    moment: this is what a directly connected observer reads through the
    properties while it handles the signal.  [posted] is the event queue of
    the creator's thread, as far as the item is the receiver.  [finishing]
    tells that the worker on the pool thread has emitted [finished]: its
    action has returned, its thread is not free yet. *)
Record World := {
  self : ProjectListItem;
  emitted : list (Signal * ProjectListItem);   (* oldest first *)
  calls : list Call;                           (* oldest first *)
  init_thread : InitThread;
  exit_handler : ExitHandler;
  posted : list Posted;                        (* oldest first *)
  finishing : bool;
}.

Definition with_self (f : ProjectListItem → ProjectListItem) (w : World) : World :=
  {| self := f (self w); emitted := emitted w; calls := calls w;
     init_thread := init_thread w; exit_handler := exit_handler w;
     posted := posted w; finishing := finishing w |}.

Definition record_emit (sig : Signal) (w : World) : World :=
  {| self := self w; emitted := emitted w ++ [(sig, self w)]; calls := calls w;
     init_thread := init_thread w; exit_handler := exit_handler w;
     posted := posted w; finishing := finishing w |}.

Definition record_call (c : Call) (w : World) : World :=
  {| self := self w; emitted := emitted w; calls := calls w ++ [c];
     init_thread := init_thread w; exit_handler := exit_handler w;
     posted := posted w; finishing := finishing w |}.

Definition with_init_thread (t : InitThread) (w : World) : World :=
  {| self := self w; emitted := emitted w; calls := calls w;
     init_thread := t; exit_handler := exit_handler w; posted := posted w;
     finishing := finishing w |}.

Definition with_exit_handler (h : ExitHandler) (w : World) : World :=
  {| self := self w; emitted := emitted w; calls := calls w;
     init_thread := init_thread w; exit_handler := h; posted := posted w;
     finishing := finishing w |}.

Definition with_posted (f : list Posted → list Posted) (w : World) : World :=
  {| self := self w; emitted := emitted w; calls := calls w;
     init_thread := init_thread w; exit_handler := exit_handler w;
     posted := f (posted w); finishing := finishing w |}.

Definition with_finishing (b : bool) (w : World) : World :=
  {| self := self w; emitted := emitted w; calls := calls w;
     init_thread := init_thread w; exit_handler := exit_handler w;
     posted := posted w; finishing := b |}.

(** ** Python statements: state with exceptions *)

Definition M (A : Type) : Type := World → Result A * World.

Definition ret {A} (a : A) : M A := λ w, (Ok a, w).

Definition bind {A B} (m : M A) (k : A → M B) : M B :=
  λ w, match m w with
       | (Ok a, w') => k a w'
       | (Raise e, w') => (Raise e, w')
       end.

Definition raise {A} (e : Exception) : M A := λ w, (Raise e, w).

Declare Scope py_scope.
Delimit Scope py_scope with py.
Notation "x <- m ;; k" := (bind m (λ x, k))
  (at level 100, m at next level, right associativity) : py_scope.
Notation "m ;; k" := (bind m (λ _, k))
  (at level 100, right associativity) : py_scope.
Local Open Scope py_scope.

Definition get_self : M ProjectListItem := λ w, (Ok (self w), w).
Definition assign (f : ProjectListItem → ProjectListItem) : M unit :=
  λ w, (Ok tt, with_self f w).
Definition emit (sig : Signal) : M unit := λ w, (Ok tt, record_emit sig w).
Definition call (c : Call) : M unit := λ w, (Ok tt, record_call c w).
Definition post (p : Posted) : M unit :=
  λ w, (Ok tt, with_posted (λ queue, queue ++ [p]) w).
Definition get_finishing : M bool := λ w, (Ok (finishing w), w).
Definition set_finishing (b : bool) : M unit := λ w, (Ok tt, with_finishing b w).

(** The world a statement leaves behind, and its value. *)
Definition after {A} (m : M A) (w : World) : World := snd (m w).
Definition value {A} (m : M A) (w : World) : Result A := fst (m w).

(** ** The methods of [ProjectListItem] *)

Section Methods.
Context {stage_enum : ProjectStageEnum} {platform_of : Platform}.

(** [stm32pio.core.state.ProjectState]: an ordered dict from stage to
    flag, with the [current_stage] the collaborator derives from it. *)
Record ProjectState := {
  items : gmap ProjectStage bool;
  current_stage : ProjectStage;
}.

(** [__init__]; [id_self] is [id(self)].  The thread it starts is
    [init_scheduled], with the arguments of [init_project]. *)
Definition __init__ (project_args : option (list string))
    (project_kwargs : option Kwargs) (from_startup : bool)
    (id_self : positive) : World :=
  let project_args := match project_args with None => [] | Some a => a end in
  let project_kwargs :=
    match project_kwargs with
    | None => {| instance_options := None; other_kwargs := ∅ |}
    | Some k => k
    end in
  let logger := option_logger id_self in
  let logging_worker :=
    {| project_id := id_self; stopped := false; can_flush_log := false;
       thread_finished := false |} in
  let workers_pool :=
    QThreadPool.setExpiryTimeout (-1)
      (QThreadPool.setMaxThreadCount 1 QThreadPool.new) in
  {| self :=
       {| _from_startup := from_startup;
          logging_worker := logging_worker;
          workers_pool := workers_pool;
          _current_action := "";
          _last_action_succeed := true;
          project := None;
          _name := "Loading...";
          _state := {[ "LOADING" := true ]};
          _current_stage := "Loading...";
          qml_ready := false;
          _finalizer := None |};
     emitted := [];
     calls := [];
     init_thread :=
       init_scheduled project_args
         match instance_options project_kwargs with
         | None =>
             {| instance_options := Some {[ "logger" := logger ]};
                other_kwargs := other_kwargs project_kwargs |}
         | Some options =>
             match options !! "logger" with
             | None =>
                 {| instance_options := Some (<[ "logger" := logger ]> options);
                    other_kwargs := other_kwargs project_kwargs |}
             | Some _ => project_kwargs
             end
         end;
     exit_handler := exit_pending;
     posted := [];
     finishing := false |}.

(** The [name] property. *)
Definition name : M string :=
  s <- get_self ;;
  match project s with
  | Some p => ret (path_name p)
  | None => ret (_name s)
  end.

(** [init_project] up to [qml_ready.wait()]: [constructed] is what
    the [Stm32pio] constructor did with the arguments, [None] for a raised
    [Exception]. *)
Definition init_project (args : list string) (kwargs : Kwargs)
    (constructed : option Stm32pio) : M unit :=
  match constructed with
  | None =>
      call log_current_exception ;;
      match args with
      | arg0 :: _ => assign (λ s, set_name s arg0)
      | [] => assign (λ s, set_name s "Undefined")
      end ;;
      assign (λ s, set_state s {[ "INIT_ERROR" := true ]}) ;;
      assign (λ s, set_current_stage s "Initializing error")
  | Some p =>
      assign (λ s, set_project s (Some p)) ;;
      assign (λ s, set_name s "Project") ;;
      assign (λ s, set_state s ∅) ;;
      assign (λ s, set_current_stage s "Initialized")
  end ;;
  s <- get_self ;;
  n <- match project s with
       | None => name
       | Some p => ret (project_str p)
       end ;;
  assign (λ s, set_finalizer s (Some {| alive := true; finalize_name := n |})).

(** [init_project] after [qml_ready.wait()] has returned. *)
Definition init_project_notify : M unit :=
  emit initialized ;;
  emit nameChanged ;;
  emit stageChanged ;;
  emit stateChanged.

(** [at_exit] up to the return of [waitForDone(-1)]... *)
Definition at_exit_enter : M unit :=
  call (waitForDone (-1)).

(** ... and after it: the pool is idle by then. *)
Definition at_exit_leave (name : string) : M unit :=
  assign (λ s, set_logging_worker s
    {| project_id := project_id (logging_worker s); stopped := true;
       can_flush_log := can_flush_log (logging_worker s);
       thread_finished := thread_finished (logging_worker s) |}) ;;
  call stopped_set ;;
  assign (λ s, set_logging_worker s
    {| project_id := project_id (logging_worker s); stopped := stopped (logging_worker s);
       can_flush_log := can_flush_log (logging_worker s);
       thread_finished := true |}) ;;
  call thread_wait ;;
  call (module_logger_info ("destroyed " ++ name)).

Definition fromStartup : M bool :=
  s <- get_self ;; ret (_from_startup s).

(** [self.project.config.items(section)], a [configparser] call: a
    section that is missing raises. *)
Definition config_section (p : Stm32pio) (section : string)
    : M (gmap string string) :=
  match config_items p section with
  | Some items => ret items
  | None => raise (NoSectionError section)
  end.

(** The [config] property: the comprehension goes through the two
    sections in order. *)
Definition config : M (gmap string (gmap string string)) :=
  s <- get_self ;;
  let entry (section : string) : M (gmap string string) :=
    match project s with
    | Some p => config_section p section
    | None => ret ∅
    end in
  app_items <- entry "app" ;;
  project_items <- entry "project" ;;
  ret (list_to_map [("app", app_items); ("project", project_items)]).

(** [dict.pop(key)] with no default. *)
Definition pop (key : ProjectStage) (d : gmap ProjectStage bool)
    : M (gmap ProjectStage bool) :=
  match d !! key with
  | Some _ => ret (delete key d)
  | None => raise (KeyError (stage_name key))
  end.

(** The [state] property; [computed] is what [self.project.state]
    evaluates to at this call. *)
Definition state (computed : ProjectState) : M (gmap string bool) :=
  s <- get_self ;;
  match project s with
  | Some _ =>
      let state := computed in
      assign (λ s, set_current_stage s (stage_str (current_stage state))) ;;
      rest <- pop UNDEFINED (items state) ;;
      ret (kmap stage_name rest)
  | None => ret (_state s)
  end.

Definition currentStage : M string :=
  s <- get_self ;; ret (_current_stage s).

Definition currentAction : M string :=
  s <- get_self ;; ret (_current_action s).

Definition lastActionSucceed : M bool :=
  s <- get_self ;; ret (_last_action_succeed s).

Definition actionStartedSlot (action : string) : M unit :=
  assign (λ s, set_current_action s action) ;;
  emit (actionStarted action).

Definition actionFinishedSlot (action : string) (success : bool) : M unit :=
  assign (λ s, set_last_action_succeed s success) ;;
  (if negb success
   then assign (λ s, set_workers_pool s (QThreadPool.clear (workers_pool s)))
   else ret tt) ;;
  emit (actionFinished action success) ;;
  assign (λ s, set_current_action s "").

Definition qmlLoaded : M unit :=
  assign (λ s, set_qml_ready s true) ;;
  assign (λ s, set_logging_worker s
    {| project_id := project_id (logging_worker s); stopped := stopped (logging_worker s);
       can_flush_log := true;
       thread_finished := thread_finished (logging_worker s) |}).

(** Whether [obj] has the action: a method of the project or, without a
    project, of [None]. *)
Definition hasattr (obj : option Stm32pio) (attr : string) : bool :=
  match obj with
  | Some p => has_action p attr
  | None => NoneType_hasattr attr
  end.

(** [getattr(self.project, action)]: only whether it resolves matters
    here, the callable itself runs outside the model. *)
Definition getattr (obj : option Stm32pio) (attr : string) : M unit :=
  if hasattr obj attr
  then ret tt
  else raise (AttributeError attr).

(** What [run] connects to the signals of a worker: [started] to
    [actionStartedSlot], and [finished] to [actionFinishedSlot],
    [stateChanged] and [stageChanged], in this order.  The worker's parent
    is the item, which lives on the creator's thread, so each connection is
    a queued one: these bodies run on the creator's thread, when it handles
    the posted signal. *)
Definition Worker_started (worker : Worker) : M unit :=
  actionStartedSlot (action_name worker).

Definition Worker_finished (worker : Worker) (success : bool) : M unit :=
  actionFinishedSlot (action_name worker) success ;;
  emit stateChanged ;;
  emit stageChanged.

(** Modelled from the spec: the body of [Worker.run] (stm32pio.gui.util is
    missing), on the pool thread: the worker emits [started] before it
    invokes the action ([Worker_begins]) and [finished] with the result
    after, once ([Worker_ends]); how long it then takes to return, and so
    to give the thread back, is not fixed. *)
Definition Worker_begins (worker : Worker) : M unit :=
  post (posted_started worker).

Definition Worker_ends (worker : Worker) (success : bool) : M unit :=
  emitted_already <- get_finishing ;;
  if emitted_already
  then ret tt
  else post (posted_finished worker success) ;; set_finishing true.

(** [workers_pool.start(worker)]: a worker that gets the thread begins to
    run there; the call itself runs no slot. *)
Definition workers_pool_start (worker : Worker) : M unit :=
  s <- get_self ;;
  let '(pool, began) := QThreadPool.start worker (workers_pool s) in
  assign (λ s, set_workers_pool s pool) ;;
  if began then Worker_begins worker else ret tt.

Definition run (action : string) (args : list string) : M unit :=
  s <- get_self ;;
  getattr (project s) action ;;
  let worker := {| action_name := action; action_args := args |} in
  workers_pool_start worker.

End Methods.

(** ** The item at run time: who moves, and when *)

Section Steps.
Context {stage_enum : ProjectStageEnum} {platform_of : Platform}.

(** One label per thing that can happen to an item: its threads being
    scheduled, the finalizer being called, the creator's thread handling a
    posted signal, and the calls a consumer can make.  What the outer world
    decides travels in the label.  The two action slots are reached through
    the signals of a worker, as [run] connects them. *)
Inductive Label :=
| thread_init (constructed : option Stm32pio)  (* init thread runs up to the wait *)
| thread_init_resumes                          (* qml_ready.wait() returns *)
| worker_returns (success : bool)              (* the worker returns, the thread is free *)
| finalizer_called                             (* weakref.finalize fires *)
| waitForDone_returns                          (* the pool has drained *)
| call_qmlLoaded
| call_run (action : string) (args : list string)
| get_fromStartup
| get_config
| get_name
| get_state (computed : ProjectState)
| get_currentStage
| get_currentAction
| get_lastActionSucceed
| main_thread_delivers                         (* the oldest posted signal is handled *)
| worker_reports (success : bool).             (* the running action ends, the thread is kept *)

(** The pool thread, once its runnable has returned, takes the next one
    from the run queue, whatever the creator's thread has got to by
    then. *)
Definition workers_pool_next : M unit :=
  set_finishing false ;;
  assign (λ s, set_workers_pool s (QThreadPool.release (workers_pool s))) ;;
  s <- get_self ;;
  let '(pool, next) := QThreadPool.take_next (workers_pool s) in
  assign (λ s, set_workers_pool s pool) ;;
  match next with
  | Some worker => Worker_begins worker
  | None => ret tt
  end.

(** The creator's thread handles a posted signal: the connections made by
    [run] run, in connection order. *)
Definition deliver (p : Posted) : M unit :=
  match p with
  | posted_started worker => Worker_started worker
  | posted_finished worker success => Worker_finished worker success
  end.

(** Calling a [weakref.finalize] object: it runs its callback once, the
    first time; the value is the name [at_exit] was entered with. *)
Definition finalize_call : M (option string) :=
  s <- get_self ;;
  match _finalizer s with
  | Some f =>
      if alive f
      then assign (λ s, set_finalizer s
                    (Some {| alive := false; finalize_name := finalize_name f |})) ;;
           at_exit_enter ;;
           ret (Some (finalize_name f))
      else ret None
  | None => ret None
  end.

(** A label that is not enabled leaves the world as it is. *)
Definition step (l : Label) (w : World) : World :=
  match l with
  | thread_init constructed =>
      match init_thread w with
      | init_scheduled args kwargs =>
          with_init_thread init_waiting
            (after (init_project args kwargs constructed) w)
      | _ => w
      end
  | thread_init_resumes =>
      match init_thread w with
      | init_waiting =>
          if qml_ready (self w)
          then with_init_thread init_returned (after init_project_notify w)
          else w
      | _ => w
      end
  | worker_returns success =>
      match QThreadPool.active (workers_pool (self w)) with
      | worker :: _ => after (Worker_ends worker success ;; workers_pool_next) w
      | [] => w
      end
  | finalizer_called =>
      match finalize_call w with
      | (Ok (Some name), w') => with_exit_handler (exit_waiting name) w'
      | _ => w
      end
  | waitForDone_returns =>
      match exit_handler w with
      | exit_waiting name =>
          if QThreadPool.idle (workers_pool (self w))
          then with_exit_handler exit_returned (after (at_exit_leave name) w)
          else w
      | _ => w
      end
  | call_qmlLoaded => after qmlLoaded w
  | call_run action args => after (run action args) w
  | get_fromStartup => after fromStartup w
  | get_config => after config w
  | get_name => after name w
  | get_state computed => after (state computed) w
  | get_currentStage => after currentStage w
  | get_currentAction => after currentAction w
  | get_lastActionSucceed => after lastActionSucceed w
  | main_thread_delivers =>
      match posted w with
      | p :: rest => after (deliver p) (with_posted (λ _, rest) w)
      | [] => w
      end
  | worker_reports success =>
      match QThreadPool.active (workers_pool (self w)) with
      | worker :: _ => after (Worker_ends worker success) w
      | [] => w
      end
  end.

Definition exec (ls : list Label) (w : World) : World :=
  foldl (λ w l, step l w) w ls.

End Steps.

(** ** What is observed of a run *)

Local Open Scope nat_scope.

Section Observations.
Context {stage_enum : ProjectStageEnum} {platform_of : Platform}.

(** The worker whose action is being invoked, if any: the one that has
    the thread, from when it emits [started] until it has emitted
    [finished]. *)
Definition in_flight (w : World) : option Worker :=
  if finishing w then None else head (QThreadPool.active (workers_pool (self w))).

(** The workers that wait for the thread. *)
Definition pending (w : World) : list Worker :=
  QThreadPool.queue (workers_pool (self w)).

(** An emission: the signal, and the item its observers see. *)
Definition signal_of (e : Signal * ProjectListItem) : Signal := fst e.
Definition seen_by (e : Signal * ProjectListItem) : ProjectListItem := snd e.

Definition signals (w : World) : list Signal := signal_of <$> emitted w.

(** The signals the item emits when a posted signal is handled. *)
Definition signals_of (p : Posted) : list Signal :=
  match p with
  | posted_started worker => [actionStarted (action_name worker)]
  | posted_finished worker success =>
      [actionFinished (action_name worker) success; stateChanged; stageChanged]
  end.

(** The signals still to come from what is posted. *)
Definition to_come (w : World) : list Signal := posted w ≫= signals_of.

Definition finished_action (sig : Signal) : option string :=
  match sig with actionFinished action _ => Some action | _ => None end.

(** The actions a world has seen, oldest first: those whose finish has
    been signalled, those that have returned and whose finish is posted,
    the one being invoked, the waiting ones. *)
Definition timeline (w : World) : list string :=
  omap finished_action (signals w)
  ++ omap finished_action (to_come w)
  ++ (action_name <$> option_list (in_flight w) ++ pending w).

(** The action a label submits: [run] got past [getattr]. *)
Definition submitted (l : Label) (w : World) : list string :=
  match l with
  | call_run action args =>
      if raised (value (run action args) w) then [] else [action]
  | _ => []
  end.

(** The actions submitted along a run, in submission order. *)
Fixpoint accepted (ls : list Label) (w : World) : list string :=
  match ls with
  | [] => []
  | l :: ls => submitted l w ++ accepted ls (step l w)
  end.

Definition reports_failure (l : Label) : bool :=
  match l with
  | worker_returns false | worker_reports false => true
  | _ => false
  end.

(** Reading the action signals from the oldest on: which action is
    between its start and its finish, or [None] once two actions overlap
    or a finish has no start. *)
Definition track (st : option (option string)) (sig : Signal)
    : option (option string) :=
  match st, sig with
  | None, _ => None
  | Some None, actionStarted action => Some (Some action)
  | Some (Some _), actionStarted _ => None
  | Some (Some running), actionFinished action _ =>
      if decide (action = running) then Some None else None
  | Some None, actionFinished _ _ => None
  | Some cur, _ => Some cur
  end.

Definition serial (sigs : list Signal) : option (option string) :=
  foldl track (Some None) sigs.

Global Arguments serial : simpl never.

(** What [__init__] sets up and every step keeps: one thread, so at most
    one worker on it, nothing waiting behind a free thread, no worker
    finishing without one on the thread; the action signals, those still
    to come included, open and close one action at a time and end with
    the action open that is being invoked; and [_current_action] names the
    action that the signals emitted so far leave open. *)
Record consistent (w : World) : Prop := {
  one_thread : QThreadPool.maxThreadCount (workers_pool (self w)) = 1%Z;
  one_active : length (QThreadPool.active (workers_pool (self w))) ≤ 1;
  queue_behind : QThreadPool.active (workers_pool (self w)) = [] → pending w = [];
  finishing_holds :
    finishing w = true → QThreadPool.active (workers_pool (self w)) ≠ [];
  stream_closed :
    serial (signals w ++ to_come w) = Some (action_name <$> in_flight w);
  action_tracked :
    ∃ open, serial (signals w) = Some open
            ∧ _current_action (self w) = default "" open;
}.

(** A posted signal that reports a failure. *)
Definition posted_failure (p : Posted) : bool :=
  match p with
  | posted_finished _ false => true
  | _ => false
  end.

(** The creator's thread is about to handle the finish of a failed
    action. *)
Definition delivers_failure (l : Label) (w : World) : bool :=
  match l, posted w with
  | main_thread_delivers, posted_finished _ false :: _ => true
  | _, _ => false
  end.

(** The world once the creator's thread has handled all that is
    posted. *)
Definition settle (w : World) : World :=
  exec (replicate (length (posted w)) main_thread_delivers) w.

(** A failure is seen with the run queue already empty. *)
Definition flush_seen (e : Signal * ProjectListItem) : Prop :=
  match signal_of e with
  | actionFinished _ false => QThreadPool.queue (workers_pool (seen_by e)) = []
  | _ => True
  end.

(** What a property reads on the item as an emission shows it. *)
Definition read_at {A} (e : Signal * ProjectListItem) (property : M A)
    : Result A :=
  value property
    {| self := seen_by e; emitted := []; calls := [];
       init_thread := init_returned; exit_handler := exit_pending;
       posted := []; finishing := false |}.

(** An action signal is seen with its action as the current one, a finish
    also with its result as the last one. *)
Definition action_seen (e : Signal * ProjectListItem) : Prop :=
  match signal_of e with
  | actionStarted action => read_at e currentAction = Ok action
  | actionFinished action success =>
      read_at e currentAction = Ok action
      ∧ read_at e lastActionSucceed = Ok success
  | _ => True
  end.

Definition init_signals : list Signal :=
  [initialized; nameChanged; stageChanged; stateChanged].

(** [initialized] has been emitted exactly when the init thread has
    returned, then once, with the three change signals right behind. *)
Definition announced (w : World) : Prop :=
  match init_thread w with
  | init_returned =>
      (∃ before later,
          signals w = before ++ init_signals ++ later
          ∧ (initialized ∉ before) ∧ (initialized ∉ later))
  | _ => initialized ∉ signals w
  end.

(** [initialized] is seen with [qml_ready] set. *)
Definition ready_seen (e : Signal * ProjectListItem) : Prop :=
  match signal_of e with
  | initialized => qml_ready (seen_by e) = true
  | _ => True
  end.

Definition is_qmlLoaded (l : Label) : bool :=
  match l with call_qmlLoaded => true | _ => false end.

(** The name [init_project] falls back to. *)
Definition fallback_name (args : list string) : string :=
  match args with
  | arg0 :: _ => arg0
  | [] => "Undefined"
  end.

(** While the init thread has not run, the item is as [__init__] left
    it. *)
Definition loading (args : list string) (w : World) : Prop :=
  match init_thread w with
  | init_scheduled a _ =>
      a = args ∧ project (self w) = None
      ∧ _state (self w) = {[ "LOADING" := true ]}
  | _ => True
  end.

(** The item after a failed construction. *)
Definition init_failed (args : list string) (w : World) : Prop :=
  match init_thread w with
  | init_scheduled _ _ => False
  | _ =>
      project (self w) = None
      ∧ _name (self w) = fallback_name args
      ∧ _state (self w) = {[ "INIT_ERROR" := true ]}
      ∧ _current_stage (self w) = "Initializing error"
  end.

(** The calls of [at_exit] among the recorded ones. *)
Definition at_exit_call (c : Call) : option Call :=
  match c with
  | log_current_exception => None
  | _ => Some c
  end.

Definition at_exit_calls (w : World) : list Call := omap at_exit_call (calls w).

(** The name [init_project] hands to [weakref.finalize]. *)
Definition registered_name (w : World) : string :=
  match project (self w) with
  | Some p => project_str p
  | None => _name (self w)
  end.

(** Where the finalizer stands, and what [at_exit] has done so far. *)
Definition teardown (w : World) : Prop :=
  match init_thread w, exit_handler w with
  | init_scheduled _ _, exit_pending =>
      _finalizer (self w) = None ∧ at_exit_calls w = []
  | init_scheduled _ _, _ => False
  | _, exit_pending =>
      _finalizer (self w)
      = Some {| alive := true; finalize_name := registered_name w |}
      ∧ at_exit_calls w = []
  | _, exit_waiting n =>
      n = registered_name w
      ∧ _finalizer (self w) = Some {| alive := false; finalize_name := n |}
      ∧ at_exit_calls w = [waitForDone (-1)]
  | _, exit_returned =>
      _finalizer (self w)
      = Some {| alive := false; finalize_name := registered_name w |}
      ∧ at_exit_calls w
        = [waitForDone (-1); stopped_set; thread_wait;
           module_logger_info ("destroyed " ++ registered_name w)]
      ∧ stopped (logging_worker (self w)) = true
      ∧ thread_finished (logging_worker (self w)) = true
  end.

(** What the finish signals so far say about the last action: the result
    of the latest one, [true] when there is none. *)
Definition last_result (sigs : list Signal) : bool :=
  foldl (λ result sig,
           match sig with
           | actionFinished _ success => success
           | _ => result
           end) true sigs.

Global Arguments last_result : simpl never.

End Observations.

(** ** Further observations *)

Section Progress.
Context {stage_enum : ProjectStageEnum} {platform_of : Platform}.

(** The actions that have been accepted and have not finished yet. *)
Definition outstanding (w : World) : nat :=
  length (QThreadPool.active (workers_pool (self w))) + length (pending w).

(** Reading the signals from the oldest on: after a finish the two change
    signals that [run] connects to it are owed, first [stateChanged], then
    [stageChanged]. *)
Inductive Refresh := settled | owes_state | owes_stage | missed.

Definition refresh (r : Refresh) (sig : Signal) : Refresh :=
  match r, sig with
  | settled, actionFinished _ _ => owes_state
  | settled, _ => settled
  | owes_state, stateChanged => owes_stage
  | owes_stage, stageChanged => settled
  | _, _ => missed
  end.

Definition refreshed (sigs : list Signal) : Refresh := foldl refresh settled sigs.

Global Arguments refreshed : simpl never.

(** The options the creator gave for the project instance, if any. *)
Definition given_options (kwargs : option Kwargs) : gmap string InstanceOption :=
  match kwargs with
  | Some k => default ∅ (instance_options k)
  | None => ∅
  end.

(** What the item shows of its initialisation: still loading, failed, or
    holding a project. *)
Definition phase (w : World) : Prop :=
  match init_thread w with
  | init_scheduled _ _ =>
      project (self w) = None
      ∧ _name (self w) = "Loading..."
      ∧ _state (self w) = {[ "LOADING" := true ]}
      ∧ _current_stage (self w) = "Loading..."
      ∧ _finalizer (self w) = None
  | _ =>
      match project (self w) with
      | None =>
          _state (self w) = {[ "INIT_ERROR" := true ]}
          ∧ _current_stage (self w) = "Initializing error"
      | Some _ =>
          _state (self w) = ∅ ∧ _name (self w) = "Project"
      end
      ∧ is_Some (_finalizer (self w))
  end.

(** The stage text of the latest [state] request among the labels, [start]
    when there is none. *)
Definition latest_stage (ls : list Label) (start : string) : string :=
  foldl (λ stage l,
           match l with
           | get_state computed => stage_str (current_stage computed)
           | _ => stage
           end) start ls.

End Progress.

(** ** The settings module (src/stm32pio/core/settings.py) *)

Module Settings.

(** A line feed, as in the source's multi-line literals. *)
Definition LF : string := String (Ascii.ascii_of_nat 10) "".

(** A value of the project section: a string or a flag. *)
Inductive Value :=
| Str (s : string)
| Flag (b : bool).

(** What the module reads of its surroundings when it is imported. *)
Record Surroundings := {
  system : string;                               (* platform.system() *)
  home : string;                                 (* Path.home() *)
  settings_dir : string;                         (* Path(__file__).parent *)
  PIPELINE_WORKSPACE : option string;            (* os.environ.get(...) *)
  STM32PIO_CUBEMX_CACHE_FOLDER : option string;
  STM32PIO_TEST_FIXTURES : option string;
  STM32PIO_TEST_CASE : option string;
  joined : string → string → string;             (* str(Path(a) / b) *)
  path_exists : string → option bool;            (* Path(p).exists(), None when it raises *)
  read_text : string → option string;            (* Path(p).read_text(), None when it raises *)
}.

Record Config := {
  app : gmap string string;
  project : gmap string Value;
}.

Definition config_file_name : string := "stm32pio.ini".

(** [inspect.cleandoc] of the two literals: the common indentation and the
    blank first and last lines are gone. *)
Definition cubemx_script_content : string :=
  "config load ${ioc_file_absolute_path}" ++ LF ++
  "generate code ${project_dir_absolute_path}" ++ LF ++
  "exit".

Definition platformio_ini_patch_content : string :=
  "[platformio]" ++ LF ++
  "include_dir = Inc" ++ LF ++
  "src_dir = Src".

Definition config_default (env : Surroundings) : Config :=
  let my_os := system env in
  {| app :=
       {[ "platformio_cmd" := "platformio";
          "cubemx_cmd" :=
            if String.eqb my_os "Darwin"
            then "/Applications/STMicroelectronics/STM32CubeMX.app/Contents/MacOs/STM32CubeMX"
            else if String.eqb my_os "Linux"
            then joined env (home env) "STM32CubeMX/STM32CubeMX"
            else if String.eqb my_os "Windows"
            then "C:/Program Files/STMicroelectronics/STM32Cube/STM32CubeMX/STM32CubeMX.exe"
            else "";
          "java_cmd" :=
            if String.eqb my_os "Windows"
            then "C:/Program Files/STMicroelectronics/STM32Cube/STM32CubeMX/jre/bin/java.exe"
            else "None" ]};
     project :=
       {[ "cubemx_script_content" := Str cubemx_script_content;
          "platformio_ini_patch_content" := Str platformio_ini_patch_content;
          "board" := Str "";
          "ioc_file" := Str "";
          "cleanup_ignore" := Str "";
          "cleanup_use_git" := Flag false;
          "inspect_ioc" := Flag true ]} |}.

Definition none_options : list string := ["none"; "no"; "null"; "0"].
Definition no_options : list string := ["n"; "no"; "false"; "0"].
Definition yes_options : list string := ["y"; "yes"; "true"; "1"].

Definition cubemx_str_indicating_success : string := "Code succesfully generated".
Definition cubemx_str_indicating_error : string := "Exception in code generation".

Definition log_fieldwidth_function : Z := 20.

(** What the import can die of: [Path(None)] raises a [TypeError];
    [exists] raises when the path may not be looked up (a directory on the
    way without search permission), and [read_text] when what exists at the
    path cannot be read as text (a directory, a file without read
    permission, bytes that do not decode). *)
Inductive ImportError :=
| TypeError
| PathError (path : string).

(** The lock file of the test case. *)
Definition platformio_ini_lockfile (env : Surroundings) (TEST_CASE : string)
    : string :=
  let TEST_FIXTURES_PATH :=
    match STM32PIO_TEST_FIXTURES env with
    | Some fixtures => fixtures
    | None => joined env (settings_dir env) "../../tests/fixtures"
    end in
  joined env (joined env TEST_FIXTURES_PATH TEST_CASE) "platformio.ini.lockfile".

(** The text appended to the patch on a CI server: the lock file of the
    test case, when there is a test case and the file exists. *)
Definition patch_mixin (env : Surroundings) : ImportError + string :=
  match STM32PIO_TEST_CASE env with
  | Some TEST_CASE =>
      let lockfile := platformio_ini_lockfile env TEST_CASE in
      match path_exists env lockfile with
      | Some true =>
          match read_text env lockfile with
          | Some text => inr (LF +:+ LF +:+ text)
          | None => inl (PathError lockfile)
          end
      | Some false => inr ""
      | None => inl (PathError lockfile)
      end
  | None => inr ""
  end.

(** [d[key] += more] on a string entry. *)
Definition append_to (key : string) (more : string) (d : gmap string Value)
    : gmap string Value :=
  match d !! key with
  | Some (Str s) => <[ key := Str (s ++ more) ]> d
  | _ => d
  end.

(** The module once imported: [config_default] as the bottom part of the
    file leaves it, or the error of the import. *)
Definition imported (env : Surroundings) : ImportError + Config :=
  let config_default := config_default env in
  match PIPELINE_WORKSPACE env with
  | None => inr config_default
  | Some _ =>
      match STM32PIO_CUBEMX_CACHE_FOLDER env with
      | None => inl TypeError
      | Some folder =>
          let app :=
            {[ "platformio_cmd" := "platformio";
               "cubemx_cmd" := joined env folder "STM32CubeMX.exe";
               "java_cmd" := "java" ]} in
          match patch_mixin env with
          | inl error => inl error
          | inr mixin =>
              inr {| app := app;
                     project :=
                       append_to "platformio_ini_patch_content" mixin
                         (project config_default) |}
          end
      end
  end.

End Settings.

(** ** A concrete setting for the examples *)

Module Scenario.

(** Modelled from the spec: the stages of section 3 (the enum
    [ProjectStage] is missing), with the sentinel first. *)
Inductive Stage :=
| Undefined | Empty | Initialized | Generated | ToolchainReady | Patched | Built.

Definition Stage_rank (s : Stage) : nat :=
  match s with
  | Undefined => 0 | Empty => 1 | Initialized => 2 | Generated => 3
  | ToolchainReady => 4 | Patched => 5 | Built => 6
  end.

Definition Stage_of_rank (n : nat) : Stage :=
  match n with
  | 0 => Undefined | 1 => Empty | 2 => Initialized | 3 => Generated
  | 4 => ToolchainReady | 5 => Patched | _ => Built
  end.

Definition Stage_name (s : Stage) : string :=
  match s with
  | Undefined => "UNDEFINED" | Empty => "EMPTY" | Initialized => "INITIALIZED"
  | Generated => "GENERATED" | ToolchainReady => "TOOLCHAIN_READY"
  | Patched => "PATCHED" | Built => "BUILT"
  end.

Definition Stage_str (s : Stage) : string :=
  match s with
  | Undefined => "Undefined" | Empty => "Empty" | Initialized => "Initialized"
  | Generated => "Generated" | ToolchainReady => "ToolchainReady"
  | Patched => "Patched" | Built => "Built"
  end.

#[export] Instance Stage_eq_dec : EqDecision Stage.
Proof. solve_decision. Defined.

#[export] Instance Stage_countable : Countable Stage.
Proof.
  apply (inj_countable' Stage_rank Stage_of_rank).
  intros []; reflexivity.
Defined.

#[export] Instance Stage_name_inj : Inj (=) (=) Stage_name.
Proof. intros [] []; simpl; intros E; first [reflexivity | discriminate E]. Qed.

#[export] Instance stages : ProjectStageEnum :=
  {| ProjectStage := Stage; UNDEFINED := Undefined;
     stage_name := Stage_name; stage_str := Stage_str |}.

(** A platform: CPython 3.8, where [dir(None)] lists the methods below,
    and [__class__] and [__doc__], which are none; and four cores. *)
#[export] Instance platform : Platform :=
  {| NoneType_hasattr :=
       λ attr, bool_decide
         (attr ∈ ["__bool__"; "__delattr__"; "__dir__"; "__eq__";
                  "__format__"; "__ge__"; "__getattribute__"; "__gt__";
                  "__hash__"; "__init__"; "__init_subclass__"; "__le__";
                  "__lt__"; "__ne__"; "__new__"; "__reduce__"; "__reduce_ex__";
                  "__repr__"; "__setattr__"; "__sizeof__"; "__str__";
                  "__subclasshook__"]);
     idealThreadCount := 4 |}.

(** A project that resolves the actions [build] and [clean]. *)
Definition blinky : Stm32pio :=
  {| path_name := "blinky";
     project_str := "Stm32pio project: /home/user/blinky";
     has_action := λ attr, bool_decide (attr ∈ ["build"; "clean"; "generate_code"]);
     config_items :=
       λ section, if bool_decide (section ∈ ["app"; "project"])
                  then Some ∅ else None |}.

(** The keyword arguments the constructor gets when the creator gave
    none: the logger of item 1. *)
Definition logger_only : Kwargs :=
  {| instance_options := Some {[ "logger" := option_logger 1 ]};
     other_kwargs := ∅ |}.

(** A freshly created item for the path [/home/user/blinky]. *)
Definition fresh : World := __init__ (Some ["/home/user/blinky"]) None false 1.

(** The same item once the project is constructed and the front end has
    loaded. *)
Definition ready : World :=
  exec [thread_init (Some blinky); call_qmlLoaded; thread_init_resumes] fresh.

(** The same item when the constructor raised. *)
Definition broken : World :=
  exec [thread_init None; call_qmlLoaded; thread_init_resumes] fresh.

(** What [project.state] may evaluate to after code generation. *)
Definition generated : ProjectState :=
  {| items := {[ Undefined := true; Empty := true; Initialized := true;
                 Generated := true; ToolchainReady := false;
                 Patched := false; Built := false ]};
     current_stage := Generated |}.

End Scenario.

(** * Properties *)

(** A pool of one thread has a free thread exactly when none runs. *)
Lemma one_thread_free (n : nat) :
  (Z.of_nat n <? 1)%Z = match n with 0 => true | S _ => false end.
Proof. destruct n; [reflexivity|]. apply Z.ltb_ge. lia. Qed.

(** Runs the Python statements of the goal symbolically, down to records
    of fields, splitting on whatever a branch of the code looks at. *)
Ltac py_cbv :=
  cbv beta iota zeta delta
    [step exec after value run workers_pool_start workers_pool_next
     Worker_finished Worker_started actionFinishedSlot actionStartedSlot
     qmlLoaded state pop currentStage currentAction lastActionSucceed
     fromStartup config name init_project init_project_notify
     finalize_call at_exit_enter at_exit_leave getattr hasattr
     config_section deliver Worker_begins Worker_ends
     bind ret raise get_self assign emit call post get_finishing set_finishing
     with_self record_emit record_call with_init_thread with_exit_handler
     with_posted with_finishing
     QThreadPool.start QThreadPool.take_next QThreadPool.release
     QThreadPool.clear QThreadPool.idle QThreadPool.activeThreadCount
     set_logging_worker set_workers_pool set_current_action
     set_last_action_succeed set_project set_name set_state
     set_current_stage set_qml_ready set_finalizer
     self emitted calls init_thread exit_handler posted finishing
     _from_startup logging_worker workers_pool _current_action
     _last_action_succeed project _name _state _current_stage qml_ready
     _finalizer QThreadPool.maxThreadCount QThreadPool.expiryTimeout
     QThreadPool.active QThreadPool.queue
     project_id stopped can_flush_log thread_finished alive finalize_name
     fst snd negb length tail head default raised].

Ltac py_case :=
  match goal with
  | |- context [match ?x with _ => _ end] => is_var x; destruct x
  | |- context [if has_action ?p ?a then _ else _] =>
      destruct (has_action p a) eqn:?
  | |- context [if NoneType_hasattr ?a then _ else _] =>
      destruct (NoneType_hasattr a) eqn:?
  | |- context [match ?m !! ?k with _ => _ end] => destruct (m !! k) eqn:?
  | |- context [match config_items ?p ?section with _ => _ end] =>
      destruct (config_items p section) eqn:?
  | |- context [if (?a <? ?b)%Z then _ else _] => destruct (a <? b)%Z eqn:?
  end.

Ltac py_go := repeat (py_cbv; rewrite ?one_thread_free; try py_case).

(** Names the fields of a world whose pool runs at most one worker. *)
Ltac open_world w Hact Hfin :=
  let act := fresh "act" in
  let fin := fresh "fin" in
  destruct w as [[? ? [? ? act ?] ? ? ? ? ? ? ? ?] ? ? ? ? ? fin];
  cbn in *; subst;
  destruct act as [|? [|? ?]];
  [ destruct fin; [by destruct Hfin|] | destruct fin | cbn in Hact; lia ].

Section Execution.
Context {stage_enum : ProjectStageEnum} {platform_of : Platform}.

Lemma exec_nil w : exec [] w = w.
Proof. reflexivity. Qed.

Lemma exec_cons l ls w : exec (l :: ls) w = exec ls (step l w).
Proof. reflexivity. Qed.

Lemma exec_app ls1 ls2 w : exec (ls1 ++ ls2) w = exec ls2 (exec ls1 w).
Proof. unfold exec. apply foldl_app. Qed.

Lemma exec_snoc ls l w : exec (ls ++ [l]) w = step l (exec ls w).
Proof. rewrite exec_app. reflexivity. Qed.

(** A property of the start that every step keeps holds all along. *)
Lemma exec_invariant (P : World → Prop) (w0 : World) :
  P w0 → (∀ l w, P w → P (step l w)) → ∀ ls, P (exec ls w0).
Proof.
  intros H0 Hstep ls. revert w0 H0.
  induction ls as [|l ls IH]; intros w0 H0; [exact H0|].
  rewrite exec_cons. apply IH, Hstep, H0.
Qed.

(** ** The pool of one thread *)

Lemma init_consistent args kwargs from_startup id_self :
  consistent (__init__ args kwargs from_startup id_self).
Proof. split; cbn; auto. by exists None. Qed.

Lemma serial_app sigs more : serial (sigs ++ more) = foldl track (serial sigs) more.
Proof. unfold serial. apply foldl_app. Qed.

(** Once two actions have overlapped, no later signal repairs it. *)
Lemma track_None sigs : foldl track None sigs = None.
Proof. induction sigs as [|sig sigs IH]; [reflexivity|exact IH]. Qed.

(** Names the action the emitted signals leave open, and reads what is
    to come from there. *)
Ltac open_stream Hs open Ho :=
  rewrite serial_app, Ho in Hs; destruct open as [?|].

(** What is posted next is read off the signals to come. *)
Ltac next_posted Hs :=
  cbn in Hs; repeat case_decide; rewrite ?track_None in Hs; try discriminate Hs.

Lemma step_stream l w :
  consistent w →
  ∃ open,
    serial (signals (step l w)) = Some open
    ∧ foldl track (Some open) (to_come (step l w))
      = Some (action_name <$> in_flight (step l w))
    ∧ _current_action (self (step l w)) = default "" open.
Proof.
  intros [Hmax Hact Hq Hfin Hs (open & Ho & Hcur)]. open_stream Hs open Ho.
  all: unfold signals, to_come, in_flight, pending in *.
  all: open_world w Hact Hfin.
  all: try rewrite (Hq eq_refl).
  all: destruct l; py_go.
  all: next_posted Hs.
  all: eexists; split;
    [ rewrite ?fmap_app, ?serial_app, ?Ho; cbn; rewrite ?decide_True by done;
      reflexivity |].
  all: split; [|cbn; done].
  all: rewrite ?bind_app, ?foldl_app, ?Hs; cbn; rewrite ?decide_True by done.
  all: done.
Qed.

Lemma step_consistent l w : consistent w → consistent (step l w).
Proof.
  intros Hc. destruct (step_stream l w Hc) as (open & Ho & Hs & Hcur).
  split; [..|rewrite serial_app, Ho; exact Hs|by exists open].
  all: clear open Ho Hs Hcur.
  all: destruct Hc as [Hmax Hact Hq Hfin _ _]; unfold in_flight, pending in *.
  all: open_world w Hact Hfin.
  all: destruct l; py_go.
  all: cbn; auto; discriminate.
Qed.

Lemma reachable_consistent args kwargs from_startup id_self ls :
  consistent (exec ls (__init__ args kwargs from_startup id_self)).
Proof.
  apply exec_invariant; [apply init_consistent | apply step_consistent].
Qed.

Lemma exec_consistent ls w : consistent w → consistent (exec ls w).
Proof. intros Hw. apply exec_invariant; [exact Hw | apply step_consistent]. Qed.

(** The finish that is posted first is that of the current action. *)
Lemma posted_finish_is_current w worker success rest :
  consistent w →
  posted w = posted_finished worker success :: rest →
  _current_action (self w) = action_name worker.
Proof.
  intros [_ _ _ _ Hs (open & Ho & Hcur)] Hposted. open_stream Hs open Ho.
  all: unfold to_come in Hs; rewrite Hposted in Hs; next_posted Hs.
  rewrite Hcur. cbn. congruence.
Qed.

(** ** Submission order *)

Lemma step_timeline l w :
  consistent w →
  if delivers_failure l w
  then timeline (step l w) ++ (action_name <$> pending w) = timeline w
       ∧ pending (step l w) = []
  else timeline (step l w) = timeline w ++ submitted l w.
Proof.
  intros [Hmax Hact Hq Hfin _ _].
  unfold timeline, signals, to_come, submitted, delivers_failure, in_flight,
    pending in *.
  open_world w Hact Hfin.
  all: try rewrite (Hq eq_refl).
  all: destruct l; py_go.
  all: rewrite ?fmap_app, ?bind_app, ?omap_app; cbn.
  all: rewrite ?fmap_app, ?app_nil_r, <- ?app_assoc; cbn.
  all: try done.
Qed.

Lemma step_timeline_sublist l w :
  consistent w → timeline (step l w) `sublist_of` timeline w ++ submitted l w.
Proof.
  intros Hw. pose proof (step_timeline l w Hw) as Hstep.
  destruct (delivers_failure l w).
  - destruct Hstep as [<- _]. rewrite <- app_assoc. by apply sublist_inserts_r.
  - by rewrite Hstep.
Qed.

Lemma exec_timeline ls : ∀ w hist,
  consistent w →
  timeline w `sublist_of` hist →
  timeline (exec ls w) `sublist_of` hist ++ accepted ls w.
Proof.
  induction ls as [|l ls IH]; intros w hist Hw Hsub; cbn [accepted].
  - rewrite app_nil_r. exact Hsub.
  - rewrite exec_cons, app_assoc. apply IH; [by apply step_consistent|].
    etrans; [apply step_timeline_sublist, Hw|].
    apply sublist_app; [exact Hsub | reflexivity].
Qed.

(** Without a failing action no failure is ever posted. *)
Lemma step_no_failure l w :
  reports_failure l = false →
  Forall (λ p, posted_failure p = false) (posted w) →
  Forall (λ p, posted_failure p = false) (posted (step l w))
  ∧ delivers_failure l w = false.
Proof.
  unfold delivers_failure.
  destruct w as [[? ? [? ? ? ?] ? ? ? ? ? ? ? ?] ? ? ? ? ? ?]; cbn.
  intros Hl Hall. destruct l; py_go; try discriminate Hl.
  all: rewrite ?Forall_app; repeat split; try exact Hall.
  all: try (by repeat constructor).
  all: try (by inversion Hall).
Qed.

Lemma exec_timeline_exact ls : ∀ w hist,
  consistent w →
  Forall (λ p, posted_failure p = false) (posted w) →
  forallb (λ l, negb (reports_failure l)) ls = true →
  timeline w = hist →
  timeline (exec ls w) = hist ++ accepted ls w.
Proof.
  induction ls as [|l ls IH]; intros w hist Hw Hall Hok Heq; cbn [accepted].
  - by rewrite app_nil_r.
  - cbn in Hok. apply andb_prop in Hok as [Hl Hls].
    apply negb_true_iff in Hl.
    destruct (step_no_failure l w Hl Hall) as [Hall' Hno].
    rewrite exec_cons, app_assoc. apply IH; [by apply step_consistent|done|done|].
    rewrite <- Heq. pose proof (step_timeline l w Hw) as Hstep.
    by rewrite Hno in Hstep.
Qed.

(** C1: an item never has more than one worker on its thread, and none
    waits while the thread is free; its action signals, those emitted and
    those still posted, never overlap: each start is closed by its own
    finish before the next start, and the one left open is the action
    being invoked; the actions whose finish has been signalled, those
    whose finish is posted, the one being invoked and the waiting ones
    come in the order in which [run] accepted them.  Every step adds to
    them exactly the action it submits, at the end, and only the handling
    of a failure takes any away, the waiting ones; so they are exactly the
    accepted ones as long as no action fails. *)
Theorem one_action_in_flight_in_submission_order
    (args : option (list string)) (kwargs : option Kwargs) (from_startup : bool)
    (id_self : positive)
    (ls : list Label) :
  let w0 := __init__ args kwargs from_startup id_self in
  let w := exec ls w0 in
  length (QThreadPool.active (workers_pool (self w))) ≤ 1
  ∧ match QThreadPool.active (workers_pool (self w)) with
    | [] => pending w = []
    | _ => True
    end
  ∧ serial (signals w ++ to_come w) = Some (action_name <$> in_flight w)
  ∧ (∃ open, serial (signals w) = Some open)
  ∧ omap finished_action (signals w) `sublist_of` accepted ls w0
  ∧ timeline w `sublist_of` accepted ls w0
  ∧ (∀ l : Label,
       if delivers_failure l w
       then timeline (step l w) ++ (action_name <$> pending w) = timeline w
            ∧ pending (step l w) = []
       else timeline (step l w) = timeline w ++ submitted l w)
  ∧ (forallb (λ l, negb (reports_failure l)) ls = true →
     timeline w = accepted ls w0).
Proof.
  intros w0 w.
  pose proof (reachable_consistent args kwargs from_startup id_self ls) as Hc.
  fold w0 w in Hc.
  assert (Htl : timeline w `sublist_of` accepted ls w0).
  { apply (exec_timeline ls w0 []); [apply init_consistent|].
    apply sublist_nil_l. }
  split; [apply Hc|]. split; [|split; [apply Hc|split; [|split; [|split; [|split]]]]].
  - destruct Hc as [_ _ Hq _ _ _].
    destruct (QThreadPool.active (workers_pool (self w))); [by apply Hq|exact I].
  - destruct Hc as [_ _ _ _ _ (open & Ho & _)]. by exists open.
  - etrans; [|exact Htl]. apply sublist_inserts_r. reflexivity.
  - exact Htl.
  - intros l. by apply step_timeline.
  - intros Hok.
    apply (exec_timeline_exact ls w0 []);
      [apply init_consistent|constructor|done|reflexivity].
Qed.

(** ** What an observer sees while it handles an action signal *)

Lemma step_flush_seen l w :
  consistent w →
  Forall flush_seen (emitted w) → Forall flush_seen (emitted (step l w)).
Proof.
  intros [Hmax Hact Hq Hfin _ _] Hall. unfold in_flight, pending in *.
  open_world w Hact Hfin.
  all: destruct l; py_go.
  all: rewrite ?Forall_app; repeat split; try exact Hall.
  all: repeat constructor.
Qed.

Lemma step_action_seen l w :
  consistent w →
  Forall action_seen (emitted w) → Forall action_seen (emitted (step l w)).
Proof.
  intros [Hmax Hact Hq Hfin Hs (open & Ho & Hcur)] Hall. open_stream Hs open Ho.
  all: unfold to_come, in_flight, pending in *.
  all: open_world w Hact Hfin.
  all: destruct l; py_go.
  all: next_posted Hs.
  all: rewrite ?Forall_app; repeat split; try exact Hall.
  all: repeat (apply Forall_cons; split); try apply Forall_nil.
  all: cbn; subst; try done.
Qed.

Lemma reachable_seen args kwargs from_startup id_self ls :
  let w := exec ls (__init__ args kwargs from_startup id_self) in
  Forall flush_seen (emitted w) ∧ Forall action_seen (emitted w).
Proof.
  cbn zeta.
  apply (exec_invariant (λ w, consistent w ∧
           (Forall flush_seen (emitted w) ∧ Forall action_seen (emitted w)))).
  - split; [apply init_consistent|]. split; constructor.
  - intros l w (Hc & Hf & Ha). split; [by apply step_consistent|].
    split; [by apply step_flush_seen | by apply step_action_seen].
Qed.




(** The creator's thread is the only one to touch [_current_action] and
    to emit an action signal: not [run], and not the pool thread when
    it starts or ends an action. *)
Lemma slots_run_on_delivery_only l w :
  match l with
  | call_run _ _ | worker_returns _ | worker_reports _ =>
      emitted (step l w) = emitted w
      ∧ value currentAction (step l w) = value currentAction w
  | _ => True
  end.
Proof.
  destruct w as [[? ? [? ? ? ?] ? ? ? ? ? ? ? ?] ? ? ? ? ? ?].
  destruct l; try exact I; py_go; split; reflexivity.
Qed.

(** C3, as the code has it: [actionStartedSlot] stores the action in
    [_current_action] before it emits [actionStarted];
    [actionFinishedSlot] stores the result in [_last_action_succeed]
    before it emits [actionFinished] and empties [_current_action] only
    after.  So on every action signal an item ever emits, the observer
    reads the action of the signal in [currentAction], and on a finish the
    result in [lastActionSucceed].  Neither [run] nor the pool thread,
    which start the actions, emit a signal of the item or change
    [currentAction]: the slots run when the creator's thread handles what
    the worker has posted. *)
Theorem current_action_set_around_signals :
  (∀ (w : World) (action : string),
      let w' := after (actionStartedSlot action) w in
      ∃ e,
        emitted w' = emitted w ++ [e]
        ∧ signal_of e = actionStarted action
        ∧ read_at e currentAction = Ok action
        ∧ value currentAction w' = Ok action)
  ∧ (∀ (w : World) (action : string) (success : bool),
      let w' := after (actionFinishedSlot action success) w in
      ∃ e,
        emitted w' = emitted w ++ [e]
        ∧ signal_of e = actionFinished action success
        ∧ read_at e lastActionSucceed = Ok success
        ∧ read_at e currentAction = value currentAction w
        ∧ value currentAction w' = Ok "")
  ∧ (∀ args kwargs from_startup id_self (ls : list Label),
      Forall action_seen (emitted (exec ls (__init__ args kwargs from_startup id_self))))
  ∧ (∀ (l : Label) (w : World),
      match l with
      | call_run _ _ | worker_returns _ | worker_reports _ =>
          emitted (step l w) = emitted w
          ∧ value currentAction (step l w) = value currentAction w
      | _ => True
      end).
Proof.
  split; [|split; [|split]].
  - intros w action w'. subst w'. py_go. eexists; repeat split.
  - intros w action success w'. subst w'.
    destruct success; py_go; eexists; repeat split.
  - intros. apply reachable_seen.
  - apply slots_run_on_delivery_only.
Qed.
(** ** The readiness handshake *)

Ltac not_initialized :=
  repeat first
    [ apply not_elem_of_nil
    | apply not_elem_of_cons; split; [discriminate|] ].

Lemma step_announced l w :
  consistent w → announced w → announced (step l w).
Proof.
  intros [Hmax Hact Hq Hfin _ _] Hann. unfold in_flight, pending in *.
  unfold announced, signals in *.
  open_world w Hact Hfin.
  all: destruct l; py_go; try exact Hann.
  all: rewrite ?fmap_app, <- ?app_assoc; cbn [fmap list_fmap app signal_of fst].
  all: try (destruct Hann as (before & later & Heq & Hb & Hl); rewrite Heq;
            eexists before, (later ++ _); rewrite <- !app_assoc;
            split; [reflexivity|]; split; [exact Hb|];
            apply not_elem_of_app; split; [exact Hl|]; not_initialized).
  all: try (apply not_elem_of_app; split; [exact Hann|]; not_initialized).
  all: eexists _, []; split; [reflexivity|]; split; [exact Hann|]; not_initialized.
Qed.

Lemma step_ready_seen l w :
  consistent w →
  Forall ready_seen (emitted w) → Forall ready_seen (emitted (step l w)).
Proof.
  intros [Hmax Hact Hq Hfin _ _] Hall. unfold in_flight, pending in *.
  open_world w Hact Hfin.
  all: destruct l; py_go.
  all: rewrite ?Forall_app; repeat split; try exact Hall.
  all: repeat constructor.
Qed.

Lemma reachable_announced args kwargs from_startup id_self ls :
  let w := exec ls (__init__ args kwargs from_startup id_self) in
  announced w ∧ Forall ready_seen (emitted w).
Proof.
  cbn zeta.
  apply (exec_invariant (λ w, consistent w ∧
           (announced w ∧ Forall ready_seen (emitted w)))).
  - split; [apply init_consistent|]. split; [apply not_elem_of_nil | constructor].
  - intros l w (Hc & Ha & Hr). split; [by apply step_consistent|].
    split; [by apply step_announced | by apply step_ready_seen].
Qed.

Lemma step_qml_ready l w :
  qml_ready (self (step l w)) = qml_ready (self w) || is_qmlLoaded l.
Proof.
  destruct w as [[? ? [? ? ? ?] ? ? ? ? ? ? ? ?] ? ? ? ? ? ?].
  destruct l; py_go; cbn; rewrite ?orb_false_r, ?orb_true_r; reflexivity.
Qed.

Lemma exec_qml_ready ls w :
  qml_ready (self (exec ls w)) = qml_ready (self w) || existsb is_qmlLoaded ls.
Proof.
  revert w. induction ls as [|l ls IH]; intros w; cbn [existsb].
  - by rewrite orb_false_r.
  - rewrite exec_cons, IH, step_qml_ready, orb_assoc. reflexivity.
Qed.

Lemma step_init_returned l w :
  init_thread w = init_returned → init_thread (step l w) = init_returned.
Proof.
  destruct w as [[? ? [? ? ? ?] ? ? ? ? ? ? ? ?] ? ? ? ? ? ?]. cbn. intros ->.
  destruct l; py_go; reflexivity.
Qed.

Lemma handshake_completes constructed w :
  init_thread (exec [thread_init constructed; call_qmlLoaded; thread_init_resumes] w)
  = init_returned.
Proof.
  destruct w as [[? ? [? ? ? ?] ? ? ? ? ? ? ? ?] ? ? ? ? ? ?].
  unfold exec; cbn [foldl]. py_go; reflexivity.
Qed.

(** C4: whatever the constructor of the project did, [initialized] is
    emitted only by the init thread once it is past [qml_ready.wait()]:
    until that thread has returned no [initialized] has been emitted, and
    from then on exactly one has, with [nameChanged], [stageChanged] and
    [stateChanged] right behind it, in this order; whoever handles it sees
    [qml_ready] set, which only [qmlLoaded] sets; and once the thread has
    run, the consumer has called [qmlLoaded] and the wait has returned,
    that one emission is there for good. *)
Theorem initialized_once_after_readiness
    (args : option (list string)) (kwargs : option Kwargs) (from_startup : bool)
    (id_self : positive)
    (ls : list Label) (constructed : option Stm32pio) (ls' : list Label) :
  let w0 := __init__ args kwargs from_startup id_self in
  let w := exec ls w0 in
  let w' := exec (ls ++ [thread_init constructed; call_qmlLoaded; thread_init_resumes]
                     ++ ls') w0 in
  announced w
  ∧ Forall ready_seen (emitted w)
  ∧ qml_ready (self w) = existsb is_qmlLoaded ls
  ∧ ∃ before later,
      signals w' = before ++ [initialized; nameChanged; stageChanged; stateChanged]
                          ++ later
      ∧ (initialized ∉ before) ∧ (initialized ∉ later).
Proof.
  intros w0 w w'.
  split; [apply reachable_announced|].
  split; [apply reachable_announced|].
  split; [apply exec_qml_ready|].
  pose proof (reachable_announced args kwargs from_startup id_self
    (ls ++ [thread_init constructed; call_qmlLoaded; thread_init_resumes] ++ ls'))
    as [Hann _].
  fold w0 w' in Hann. unfold announced in Hann.
  assert (Hret : init_thread w' = init_returned).
  { subst w'. rewrite !exec_app.
    apply (exec_invariant (λ w, init_thread w = init_returned)).
    - apply handshake_completes.
    - intros l x. apply step_init_returned. }
  rewrite Hret in Hann. exact Hann.
Qed.

(** ** A project that could not be constructed *)

Lemma step_loading args l w : loading args w → loading args (step l w).
Proof.
  unfold loading.
  destruct w as [[? ? [? ? ? ?] ? ? ? ? ? ? ? ?] ? ? ? ? ? ?]; cbn.
  intros Hl. destruct l; py_go; try exact Hl; try exact I.
  all: destruct Hl as (? & [=] & ?).
Qed.

Lemma reachable_loading args kwargs from_startup id_self ls :
  loading (default [] args) (exec ls (__init__ args kwargs from_startup id_self)).
Proof.
  apply exec_invariant; [|apply step_loading].
  destruct args; repeat split.
Qed.

Lemma step_init_failed args l w : init_failed args w → init_failed args (step l w).
Proof.
  unfold init_failed.
  destruct w as [[? ? [? ? ? ?] ? ? ? ? ? ? ? ?] ? ? ? ? ? ?]; cbn.
  intros Hf. destruct l; py_go; try exact Hf; try done.
  all: destruct Hf as ([=] & ? & ? & ?).
Qed.

Lemma init_project_never_raises args kwargs constructed w :
  value (init_project args kwargs constructed) w = Ok tt.
Proof.
  destruct w as [[? ? [? ? ? ?] ? ? ? ? ? ? ? ?] ? ? ? ? ? ?].
  py_go; reflexivity.
Qed.

(** C5: when the constructor of the project raises, [init_project] itself
    returns normally, and from then on, whatever happens to the item, it
    has no project, its [state] is the pseudo-state [INIT_ERROR], its
    stage is the error text, and [name] is the first positional argument
    the item was created with, or ["Undefined"] when there was none. *)
Theorem construction_failure_stays
    (args : option (list string)) (kwargs : option Kwargs) (from_startup : bool)
    (id_self : positive)
    (before later : list Label) (a : list string) (k : Kwargs) :
  let w1 := exec before (__init__ args kwargs from_startup id_self) in
  let w := exec later (step (thread_init None) w1) in
  init_thread w1 = init_scheduled a k →
  value (init_project a k None) w1 = Ok tt
  ∧ project (self w) = None
  ∧ (∀ computed, value (state computed) w = Ok {[ "INIT_ERROR" := true ]})
  ∧ value currentStage w = Ok "Initializing error"
  ∧ value name w
    = Ok match args with
         | Some (arg0 :: _) => arg0
         | _ => "Undefined"
         end.
Proof.
  intros w1 w Hsched.
  split; [apply init_project_never_raises|].
  pose proof (reachable_loading args kwargs from_startup id_self before) as Hl.
  fold w1 in Hl. unfold loading in Hl. rewrite Hsched in Hl.
  destruct Hl as (Ha & Hnone & _).
  assert (Hf : init_failed a w).
  { subst w. apply exec_invariant; [|apply step_init_failed].
    clearbody w1. unfold init_failed.
    destruct w1 as [[? ? [? ? ? ?] ? ? ? ? ? ? ? ?] ? ? ? ? ? ?]; cbn in *.
    rewrite Hsched, Hnone. py_go; repeat split. }
  clearbody w. unfold init_failed in Hf.
  destruct w as [[? ? [? ? ? ?] ? ? ? ? ? ? ? ?] ? ? ? ? ? ?]; cbn in *.
  destruct init_thread0; [done|..];
    destruct Hf as (-> & -> & -> & ->); subst a;
    (split; [reflexivity|]); (split; [intros; reflexivity|]);
    (split; [reflexivity|]); by destruct args as [[|]|].
Qed.

(** ** The finalizer *)

(** Submitting an action, ending one and handling a posted signal touch
    the pool, the two action fields, the emissions, what is posted and
    whether a worker is finishing, nothing else. *)
Lemma action_step_frame l w :
  match l with
  | call_run _ _ | worker_returns _ | main_thread_delivers | worker_reports _ =>
      ∃ pool action success more queued flag,
        step l w
        = {| self :=
               set_last_action_succeed
                 (set_current_action (set_workers_pool (self w) pool) action)
                 success;
             emitted := emitted w ++ more;
             calls := calls w;
             init_thread := init_thread w;
             exit_handler := exit_handler w;
             posted := queued;
             finishing := flag |}
  | _ => True
  end.
Proof.
  destruct w as [[? ? [? ? ? ?] ? ? ? ? ? ? ? ?] ? ? ? ? ? ?].
  destruct l; try exact I; py_go.
  all: rewrite <- ?app_assoc.
  all: eexists _, _, _, _, _, _; f_equal.
  all: first [reflexivity | symmetry; apply app_nil_r].
Qed.

Lemma step_teardown l w : teardown w → teardown (step l w).
Proof.
  pose proof (action_step_frame l w) as Hframe.
  unfold teardown, at_exit_calls, registered_name.
  destruct l; try (destruct Hframe as (? & ? & ? & ? & ? & ? & ->); intros Htd; exact Htd).
  all: clear Hframe.
  all: destruct w as [[? ? [? ? ? ?] ? ? ? ? ? ? ? ?] ? ? it eh ? ?]; cbn.
  all: intros Htd.
  all: destruct it, eh; try contradiction; destruct_and?; subst.
  all: py_go.
  all: rewrite ?omap_app; cbn [omap list_omap at_exit_call app].
  all: rewrite ?app_nil_r.
  all: repeat match goal with H : omap _ _ = _ |- _ => rewrite H; clear H end.
  all: repeat split; first [assumption | reflexivity | discriminate].
Qed.

Lemma reachable_teardown args kwargs from_startup id_self ls :
  teardown (exec ls (__init__ args kwargs from_startup id_self)).
Proof.
  apply exec_invariant; [|intros l w; apply step_teardown].
  destruct args; split; reflexivity.
Qed.

(** No method, slot or property of the class enters [at_exit] or moves
    it on: only the finalizer being called and the pool having drained
    do. *)
Lemma at_exit_not_by_the_class l w :
  match l with
  | finalizer_called | waitForDone_returns => True
  | _ =>
      exit_handler (step l w) = exit_handler w
      ∧ at_exit_calls (step l w) = at_exit_calls w
  end.
Proof.
  pose proof (action_step_frame l w) as Hframe.
  unfold at_exit_calls.
  destruct l; try exact I;
    try (destruct Hframe as (? & ? & ? & ? & ? & ? & ->); split; reflexivity).
  all: clear Hframe.
  all: destruct w as [[? ? [? ? ? ?] ? ? ? ? ? ? ? ?] ? ? ? ? ? ?].
  all: py_go; rewrite ?omap_app, ?app_nil_r; split; reflexivity.
Qed.

Lemma waitForDone_blocks w :
  QThreadPool.idle (workers_pool (self w)) = false →
  step waitForDone_returns w = w.
Proof.
  destruct w as [[? ? [? ? ? ?] ? ? ? ? ? ? ? ?] ? ? ? ? ? ?]. cbn.
  unfold step. cbn. intros ->. by destruct exit_handler0.
Qed.

Lemma finalizer_runs_once w :
  step finalizer_called (step finalizer_called w) = step finalizer_called w.
Proof.
  destruct w as [[? ? [? ? ? ?] ? ? ? ? ? ? ? ?] ? ? ? ? ? ?].
  py_go; reflexivity.
Qed.

(** C6, as the code has it: [at_exit] is the callback of the
    [weakref.finalize] that [init_project] registers, and runs when that
    finalizer is called, at most once; no method of the class enters it.
    It first waits in [waitForDone(-1)], which does not return while an
    action runs or waits; then it sets [stopped], waits for the relay
    thread, and logs ["destroyed "] followed by the name fixed at
    registration ([name] without a project, [str(project)] with one), in
    this order. *)
Theorem at_exit_by_finalizer_in_order
    (args : option (list string)) (kwargs : option Kwargs) (from_startup : bool)
    (id_self : positive)
    (ls : list Label) :
  let w := exec ls (__init__ args kwargs from_startup id_self) in
  match exit_handler w with
  | exit_pending => at_exit_calls w = []
  | exit_waiting n => n = registered_name w ∧ at_exit_calls w = [waitForDone (-1)]
  | exit_returned =>
      at_exit_calls w
      = [waitForDone (-1); stopped_set; thread_wait;
         module_logger_info ("destroyed " ++ registered_name w)]
      ∧ stopped (logging_worker (self w)) = true
      ∧ thread_finished (logging_worker (self w)) = true
  end
  ∧ (∀ l, match l with
          | finalizer_called | waitForDone_returns => True
          | _ =>
              exit_handler (step l w) = exit_handler w
              ∧ at_exit_calls (step l w) = at_exit_calls w
          end)
  ∧ (QThreadPool.idle (workers_pool (self w)) = false →
     step waitForDone_returns w = w)
  ∧ step finalizer_called (step finalizer_called w) = step finalizer_called w.
Proof.
  intros w.
  split; [|split; [|split]].
  - pose proof (reachable_teardown args kwargs from_startup id_self ls) as Htd.
    fold w in Htd. unfold teardown in Htd.
    destruct (init_thread w), (exit_handler w); tauto.
  - intros l. apply at_exit_not_by_the_class.
  - apply waitForDone_blocks.
  - apply finalizer_runs_once.
Qed.

(** ** The state property *)

(** C8: with a project, what [state] returns has no key [UNDEFINED]: its
    entries are the computed ones under the names of their stages, that of
    [UNDEFINED] left out.  It returns whenever the computed state has the
    key [UNDEFINED] to pop; otherwise [pop] raises [KeyError]. *)
Theorem state_leaves_UNDEFINED_out
    (w : World) (p : Stm32pio) (computed : ProjectState) :
  project (self w) = Some p →
  match value (state computed) w with
  | Ok m =>
      m !! stage_name UNDEFINED = None
      ∧ is_Some (items computed !! UNDEFINED)
      ∧ (∀ stage, stage ≠ UNDEFINED →
           m !! stage_name stage = items computed !! stage)
      ∧ (∀ key flag, m !! key = Some flag →
           ∃ stage, key = stage_name stage ∧ stage ≠ UNDEFINED
                    ∧ items computed !! stage = Some flag)
  | Raise e =>
      e = KeyError (stage_name UNDEFINED)
      ∧ items computed !! UNDEFINED = None
  end.
Proof.
  intros Hp.
  destruct w as [[? ? [? ? ? ?] ? ? ? ? ? ? ? ?] ? ? ? ? ? ?]; cbn in Hp. subst.
  unfold value, state, pop, bind, get_self, assign, ret, raise; cbn.
  destruct (items computed !! UNDEFINED) as [flag0|] eqn:Hundef; cbn.
  - split; [|split; [|split]].
    + rewrite lookup_kmap; [apply lookup_delete_eq | apply _].
    + by eexists.
    + intros stage Hne.
      rewrite lookup_kmap; [by apply lookup_delete_ne | apply _].
    + intros key flag Hkey.
      apply lookup_kmap_Some in Hkey as (stage & -> & Hstage); [|apply _].
      exists stage. rewrite lookup_delete_Some in Hstage.
      destruct Hstage as [Hne Hstage]. by repeat split.
  - by split.
Qed.

(** ** Cached fields *)

(** C9: [currentStage] returns the cached [_current_stage] and changes
    nothing; among all that can happen to an item, only the init thread
    and the [state] property write that field (an action ending does
    not); [state] with a project writes the stage of the state computed
    for that very call, and without a project writes nothing. *)
Theorem current_stage_is_a_cache :
  (∀ w : World, currentStage w = (Ok (_current_stage (self w)), w))
  ∧ (∀ (l : Label) (w : World),
      match l with
      | thread_init _ | get_state _ => True
      | _ => _current_stage (self (step l w)) = _current_stage (self w)
      end)
  ∧ (∀ (w : World) (action : string) (success : bool),
      _current_stage (self (after (actionFinishedSlot action success) w))
      = _current_stage (self w))
  ∧ (∀ (w : World) (p : Stm32pio) (computed : ProjectState),
      project (self w) = Some p →
      _current_stage (self (after (state computed) w))
      = stage_str (current_stage computed))
  ∧ (∀ (w : World) (computed : ProjectState),
      project (self w) = None → after (state computed) w = w).
Proof.
  split; [|split; [|split; [|split]]].
  - reflexivity.
  - intros l w. pose proof (action_step_frame l w) as Hframe.
    destruct l; try exact I;
      try (destruct Hframe as (? & ? & ? & ? & ? & ? & ->); reflexivity).
    all: clear Hframe.
    all: destruct w as [[? ? [? ? ? ?] ? ? ? ? ? ? ? ?] ? ? ? ? ? ?].
    all: py_go; reflexivity.
  - intros w action success. destruct success; reflexivity.
  - intros w p computed Hp.
    destruct w as [[? ? [? ? ? ?] ? ? ? ? ? ? ? ?] ? ? ? ? ? ?]; cbn in Hp. subst.
    py_go; reflexivity.
  - intros w computed Hnone.
    destruct w as [[? ? [? ? ? ?] ? ? ? ? ? ? ? ?] ? ? ? ? ? ?]; cbn in Hnone.
    subst. reflexivity.
Qed.

Lemma last_result_app sigs more :
  last_result (sigs ++ more)
  = foldl (λ result sig,
             match sig with
             | actionFinished _ success => success
             | _ => result
             end) (last_result sigs) more.
Proof. unfold last_result. apply foldl_app. Qed.

Lemma last_result_none sigs :
  omap finished_action sigs = [] → last_result sigs = true.
Proof.
  induction sigs as [|sig sigs IH] using rev_ind; [reflexivity|].
  rewrite omap_app, last_result_app. intros Hnil.
  apply app_eq_nil in Hnil as [Hsigs Hsig]. cbn.
  destruct sig; cbn in Hsig; try discriminate; by apply IH.
Qed.

Lemma step_last_result l w :
  consistent w →
  _last_action_succeed (self w) = last_result (signals w) →
  _last_action_succeed (self (step l w)) = last_result (signals (step l w)).
Proof.
  intros [Hmax Hact Hq Hfin _ _] Hlast. unfold signals, in_flight, pending in *.
  open_world w Hact Hfin.
  all: destruct l; py_go; try exact Hlast.
  all: rewrite ?fmap_app, ?last_result_app; cbn; try exact Hlast; reflexivity.
Qed.

(** C10: a fresh item answers [lastActionSucceed] with [true]; at any
    time the answer is the result of the latest finish signal, and [true]
    as long as there is none; so it is the same before any action has
    run as after an action has succeeded. *)
Theorem last_action_succeed_starts_true
    (args : option (list string)) (kwargs : option Kwargs) (from_startup : bool)
    (id_self : positive)
    (ls : list Label) :
  let w0 := __init__ args kwargs from_startup id_self in
  let w := exec ls w0 in
  value lastActionSucceed w0 = Ok true
  ∧ value lastActionSucceed w = Ok (last_result (signals w))
  ∧ (omap finished_action (signals w) = [] → value lastActionSucceed w = Ok true)
  ∧ (∀ (x : World) (action : string),
       value lastActionSucceed (after (actionFinishedSlot action true) x)
       = value lastActionSucceed w0).
Proof.
  intros w0 w.
  assert (Hlast : _last_action_succeed (self w) = last_result (signals w)).
  { apply (exec_invariant (λ w, consistent w ∧
             _last_action_succeed (self w) = last_result (signals w))).
    - split; [apply init_consistent | reflexivity].
    - intros l x [Hc Hx]. split; [by apply step_consistent | by apply step_last_result]. }
  split; [reflexivity|]. split; [|split].
  - unfold value, lastActionSucceed, bind, get_self, ret; cbn. by rewrite Hlast.
  - intros Hnone. unfold value, lastActionSucceed, bind, get_self, ret; cbn.
    by rewrite Hlast, last_result_none.
  - intros x action. reflexivity.
Qed.




End Execution.
(** * More of the wrapper *)

Section Wrapper.
Context {stage_enum : ProjectStageEnum} {platform_of : Platform}.

(** Steps that are not about actions, run on a world with named fields. *)
Ltac by_step l w Hframe :=
  pose proof (action_step_frame l w) as Hframe;
  destruct l;
  [ | | destruct Hframe as (? & ? & ? & ? & ? & ? & Hframe) | | |
    | destruct Hframe as (? & ? & ? & ? & ? & ? & Hframe) | | | | | | |
    | destruct Hframe as (? & ? & ? & ? & ? & ? & Hframe)
    | destruct Hframe as (? & ? & ? & ? & ? & ? & Hframe) ].

(** X1: [__init__] hands the positional arguments on as they are and sees to
    it that the project instance gets a logger: the one the creator put
    under [instance_options], else the one of the item; every other option
    and every other keyword argument is passed unchanged. *)
Theorem init_passes_arguments_and_logger
    (args : option (list string)) (kwargs : option Kwargs) (from_startup : bool)
    (id_self : positive) :
  ∃ options,
    init_thread (__init__ args kwargs from_startup id_self)
    = init_scheduled (default [] args)
        {| instance_options := Some options;
           other_kwargs := default ∅ (other_kwargs <$> kwargs) |}
    ∧ options !! "logger"
      = Some (default (option_logger id_self) (given_options kwargs !! "logger"))
    ∧ ∀ key, key ≠ "logger" → options !! key = given_options kwargs !! key.
Proof.
  unfold __init__, given_options. cbn [init_thread].
  destruct args as [a|], kwargs as [[[options|] others]|]; cbn [default fmap option_fmap
    instance_options other_kwargs option_map].
  1,4: destruct (options !! "logger") as [given|] eqn:Hgiven.
  all: eexists; split; [reflexivity|]; cbn [default id].
  all: rewrite ?Hgiven, ?lookup_empty; cbn [default id].
  all: split;
    [ first [ reflexivity | apply lookup_insert_eq | apply lookup_singleton_eq ]
    | intros key Hkey;
      first [ reflexivity
            | by apply lookup_insert_ne
            | by apply lookup_singleton_ne ] ].
Qed.

(** X2: [fromStartup] answers with the flag the item was created with, whatever
    has happened to the item since. *)
Theorem from_startup_never_changes
    (args : option (list string)) (kwargs : option Kwargs) (from_startup : bool)
    (id_self : positive) (ls : list Label) :
  fromStartup (exec ls (__init__ args kwargs from_startup id_self))
  = (Ok from_startup, exec ls (__init__ args kwargs from_startup id_self)).
Proof.
  assert (Hkept : _from_startup (self (exec ls (__init__ args kwargs from_startup id_self)))
                  = from_startup).
  { apply (exec_invariant (λ w, _from_startup (self w) = from_startup)); [reflexivity|].
    intros l w Hw. by_step l w Hframe; try (rewrite Hframe; exact Hw).
    all: destruct w as [[? ? [? ? ? ?] ? ? ? ? ? ? ? ?] ? ? ? ? ? ?].
    all: py_go; exact Hw. }
  unfold fromStartup, bind, get_self, ret. by rewrite Hkept.
Qed.

Lemma step_phase l w : phase w → phase (step l w).
Proof.
  unfold phase.
  by_step l w Hframe; try (rewrite Hframe; intros Hw; exact Hw).
  all: destruct w as [[? ? [? ? ? ?] ? ? ? ? ? ? ? ?] ? ? it ? ? ?]; cbn.
  all: intros Hw; destruct it; destruct_and?; subst.
  all: py_go; cbn in *; destruct_and?; repeat split; eauto; try done.
Qed.

Lemma reachable_phase args kwargs from_startup id_self ls :
  phase (exec ls (__init__ args kwargs from_startup id_self)).
Proof.
  apply exec_invariant; [|apply step_phase]. repeat split.
Qed.

(** X3: An item shows the loading pseudo-state, the loading name and stage and
    has no finalizer exactly as long as its init thread has not run; from
    then on it either has no project and shows the error pseudo-state, or
    has a project and the reset values, and its finalizer is registered: it
    never goes back to loading. *)
Theorem loading_until_init_thread_runs
    (args : option (list string)) (kwargs : option Kwargs) (from_startup : bool)
    (id_self : positive) (ls : list Label) :
  let w := exec ls (__init__ args kwargs from_startup id_self) in
  match init_thread w with
  | init_scheduled _ _ =>
      project (self w) = None
      ∧ value name w = Ok "Loading..."
      ∧ _state (self w) = {[ "LOADING" := true ]}
      ∧ value currentStage w = Ok "Loading..."
      ∧ _finalizer (self w) = None
  | _ =>
      match project (self w) with
      | None =>
          _state (self w) = {[ "INIT_ERROR" := true ]}
          ∧ value currentStage w = Ok "Initializing error"
      | Some _ => _state (self w) = ∅
      end
      ∧ is_Some (_finalizer (self w))
      ∧ _state (self w) !! "LOADING" = None
  end.
Proof.
  intros w. pose proof (reachable_phase args kwargs from_startup id_self ls) as Hp.
  fold w in Hp. clearbody w. unfold phase in Hp.
  destruct w as [[? ? [? ? ? ?] ? ? ? ? ? ? ? ?] ? ? it ? ? ?]; cbn in *.
  destruct it; [destruct_and?; subst; repeat split|..].
  all: destruct project0; destruct_and?; subst; repeat split; done.
Qed.

(** X4: [qmlLoaded] may be called again and again: the second call changes
    nothing; it emits nothing; and once it has been called the item stays
    ready and the relay stays free to flush, whatever happens next. *)
Theorem qmlLoaded_is_idempotent_and_lasting :
  (∀ w : World, after qmlLoaded (after qmlLoaded w) = after qmlLoaded w)
  ∧ (∀ w : World,
       emitted (after qmlLoaded w) = emitted w
       ∧ calls (after qmlLoaded w) = calls w
       ∧ workers_pool (self (after qmlLoaded w)) = workers_pool (self w))
  ∧ (∀ (w : World) (ls : list Label),
       let w' := exec ls (after qmlLoaded w) in
       qml_ready (self w') = true
       ∧ can_flush_log (logging_worker (self w')) = true).
Proof.
  split; [|split].
  - intros w. reflexivity.
  - intros w. repeat split.
  - intros w ls.
    apply (exec_invariant (λ w, qml_ready (self w) = true
                                ∧ can_flush_log (logging_worker (self w)) = true));
      [split; reflexivity|].
    clear w. intros l w [Hr Hf].
    by_step l w Hframe; try (rewrite Hframe; split; assumption).
    all: destruct w as [[? [? ? ? ?] [? ? ? ?] ? ? ? ? ? ? ? ?] ? ? ? ? ? ?]; cbn in *.
    all: subst; py_go; split; reflexivity.
Qed.

(** ** Misuse *)

(** C7, as the code has it: [run] raises [AttributeError] at once, before
    any worker exists, when the action does not resolve on the project
    or, while there is no project, on [None]: nothing is queued, nothing
    is posted and nothing is emitted.  The [state] property does not raise
    while there is no project: on an item that loads it answers with the
    pseudo-state [LOADING], on one whose constructor raised with
    [INIT_ERROR], and changes nothing.  And [run] does not look at whether
    the item has been disposed of: after [at_exit] has returned an action
    that resolves is accepted like any other. *)
Theorem misuse_as_the_code_answers :
  (∀ (w : World) (action : string) (args : list string),
      hasattr (project (self w)) action = false →
      run action args w = (Raise (AttributeError action), w))
  ∧ (∀ (w : World) (action : string) (args : list string),
      project (self w) = None →
      NoneType_hasattr action = false →
      step (call_run action args) w = w
      ∧ value (run action args) w = Raise (AttributeError action))
  ∧ (∀ args kwargs from_startup id_self (ls : list Label) (computed : ProjectState),
      let w := exec ls (__init__ args kwargs from_startup id_self) in
      project (self w) = None →
      state computed w
      = (Ok match init_thread w with
            | init_scheduled _ _ => {[ "LOADING" := true ]}
            | _ => {[ "INIT_ERROR" := true ]}
            end, w))
  ∧ (∀ args kwargs from_startup id_self (ls : list Label)
       (action : string) (args' : list string),
      let w := exec ls (__init__ args kwargs from_startup id_self) in
      exit_handler w = exit_returned →
      hasattr (project (self w)) action = true →
      let w' := step (call_run action args') w in
      let worker := {| action_name := action; action_args := args' |} in
      value (run action args') w = Ok tt
      ∧ (in_flight w' = Some worker ∨ worker ∈ pending w')
      ∧ exit_handler w' = exit_returned).
Proof.
  split; [|split; [|split]].
  - intros w action args Hno.
    destruct w as [[? ? [? ? ? ?] ? ? ? ? ? ? ? ?] ? ? ? ? ? ?]; cbn in Hno.
    unfold run, bind, get_self, getattr; cbn. rewrite Hno. reflexivity.
  - intros w action args Hnone Hno.
    destruct w as [[? ? [? ? ? ?] ? ? ? ? ? ? ? ?] ? ? ? ? ? ?]; cbn in Hnone.
    subst. unfold step, after, value, run, bind, get_self, getattr, hasattr; cbn.
    rewrite Hno. split; reflexivity.
  - intros args kwargs from_startup id_self ls computed w Hnone.
    pose proof (reachable_phase args kwargs from_startup id_self ls) as Hp.
    fold w in Hp. clearbody w. unfold phase in Hp.
    destruct w as [[? ? [? ? ? ?] ? ? ? ? ? ? ? ?] ? ? it ? ? ?]; cbn in *.
    subst. destruct it; destruct_and?; subst; reflexivity.
  - intros args kwargs from_startup id_self ls action args' w Hexit Hhas w' worker.
    subst w' worker.
    destruct (reachable_consistent args kwargs from_startup id_self ls)
      as [Hmax Hact Hq Hfin _ _].
    fold w in Hmax, Hact, Hq, Hfin. clearbody w. unfold in_flight, pending in *.
    open_world w Hact Hfin.
    all: py_cbv; unfold hasattr in Hhas; rewrite Hhas; py_go.
    all: split; [reflexivity|]; split; [|reflexivity].
    all: first [ by left
               | right; apply elem_of_app; right; apply elem_of_cons; by left ].
Qed.

(** ** The current action *)

Lemma step_delivers w :
  in_flight (step main_thread_delivers w) = in_flight w
  ∧ posted (step main_thread_delivers w) = tail (posted w)
  ∧ (QThreadPool.idle (workers_pool (self w)) = true →
     QThreadPool.idle (workers_pool (self (step main_thread_delivers w))) = true).
Proof.
  unfold in_flight.
  destruct w as [[? ? [? ? act qu] ? ? ? ? ? ? ? ?] ? ? ? ? ? ?].
  destruct act, qu; py_go; repeat split; done.
Qed.

(** Once the creator's thread has handled all that is posted, nothing is
    posted, the same action is being invoked, and a pool that was idle
    still is. *)
Lemma settle_delivers_all w :
  posted (settle w) = []
  ∧ in_flight (settle w) = in_flight w
  ∧ (QThreadPool.idle (workers_pool (self w)) = true →
     QThreadPool.idle (workers_pool (self (settle w))) = true).
Proof.
  unfold settle. remember (length (posted w)) as n eqn:Hn.
  revert w Hn. induction n as [|n IH]; intros w Hn.
  - split; [|split; [reflexivity|done]]. cbn. by destruct (posted w).
  - destruct (step_delivers w) as (Hsame & Hrest & Hidle).
    cbn [replicate]. rewrite exec_cons.
    destruct (IH (step main_thread_delivers w)) as (Hnone & Hrun & Hidle').
    { rewrite Hrest. destruct (posted w); cbn in *; congruence. }
    split; [exact Hnone|]. split; [by rewrite Hrun | auto].
Qed.

Lemma settled_current_action w :
  consistent w →
  value currentAction (settle w) = Ok (default "" (action_name <$> in_flight w)).
Proof.
  intros Hw. destruct (settle_delivers_all w) as (Hnone & Hrun & _).
  assert (Hc : consistent (settle w)) by (by apply exec_consistent).
  destruct Hc as [_ _ _ _ Hs (open & Ho & Hcur)].
  unfold to_come in Hs. rewrite Hnone, Hrun in Hs. cbn in Hs.
  rewrite app_nil_r, Ho in Hs. injection Hs as ->.
  unfold value, currentAction, bind, get_self, ret; cbn. by rewrite Hcur.
Qed.

(** X5: [currentAction] is the action that the action signals emitted so far
    have started and not finished, and the empty string when there is
    none; once the creator's thread has handled all that is posted, it
    is the action of the worker that runs. *)
Theorem current_action_is_the_announced_one
    (args : option (list string)) (kwargs : option Kwargs) (from_startup : bool)
    (id_self : positive) (ls : list Label) :
  let w := exec ls (__init__ args kwargs from_startup id_self) in
  (∃ open,
     serial (signals w) = Some open
     ∧ value currentAction w = Ok (default "" open))
  ∧ value currentAction (settle w)
    = Ok match in_flight w with
         | Some worker => action_name worker
         | None => ""
         end
  ∧ in_flight (settle w) = in_flight w.
Proof.
  intros w.
  pose proof (reachable_consistent args kwargs from_startup id_self ls) as Hc.
  fold w in Hc. clearbody w. split; [|split].
  - destruct Hc as [_ _ _ _ _ (open & Ho & Hcur)]. exists open.
    split; [exact Ho|].
    unfold value, currentAction, bind, get_self, ret; cbn. by rewrite Hcur.
  - rewrite settled_current_action by done. by destruct (in_flight w).
  - apply settle_delivers_all.
Qed.

(** X7: Once the constructor has returned a project, the item keeps it: [name]
    is the name of its path, [run] accepts exactly the actions the project
    has, and [state] returns for every computed state that has the key
    [UNDEFINED]. *)
Theorem construction_success_stays
    (args : option (list string)) (kwargs : option Kwargs) (from_startup : bool)
    (id_self : positive) (before later : list Label)
    (a : list string) (k : Kwargs) (p : Stm32pio) :
  let w1 := exec before (__init__ args kwargs from_startup id_self) in
  let w := exec later (step (thread_init (Some p)) w1) in
  init_thread w1 = init_scheduled a k →
  project (self w) = Some p
  ∧ value name w = Ok (path_name p)
  ∧ (∀ action args', has_action p action = true →
       value (run action args') w = Ok tt)
  ∧ (∀ action args', has_action p action = false →
       run action args' w = (Raise (AttributeError action), w))
  ∧ (∀ computed, is_Some (items computed !! UNDEFINED) →
       value (state computed) w
       = Ok (kmap stage_name (delete UNDEFINED (items computed)))).
Proof.
  intros w1 w Hsched.
  assert (Hp : match init_thread w with
               | init_scheduled _ _ => False
               | _ => project (self w) = Some p
               end).
  { subst w. apply exec_invariant.
    - clearbody w1.
      destruct w1 as [[? ? [? ? ? ?] ? ? ? ? ? ? ? ?] ? ? ? ? ? ?]; cbn in *.
      rewrite Hsched. py_go; reflexivity.
    - clear. intros l w.
      by_step l w Hframe; try (rewrite Hframe; intros Hw; exact Hw).
      all: destruct w as [[? ? [? ? ? ?] ? ? ? ? ? ? ? ?] ? ? it ? ? ?]; cbn.
      all: intros Hw; destruct it; try contradiction; subst.
      all: py_go; reflexivity. }
  clearbody w. clear w1 Hsched.
  destruct w as [[? ? [? ? ? ?] ? ? ? ? ? ? ? ?] ? ? it ? ? ?]; cbn in *.
  assert (project0 = Some p) as -> by (by destruct it).
  clear Hp. split; [reflexivity|]. split; [reflexivity|]. split; [|split].
  - intros action args' Hhas. py_cbv. rewrite Hhas. py_go; reflexivity.
  - intros action args' Hhas. py_cbv. rewrite Hhas. reflexivity.
  - intros computed [flag Hflag]. py_cbv. rewrite Hflag. reflexivity.
Qed.

Lemma step_outstanding success w :
  consistent w →
  outstanding (step (worker_returns success) w) ≤ pred (outstanding w).
Proof.
  intros [Hmax Hact Hq Hfin _ _]. unfold outstanding, in_flight, pending in *.
  open_world w Hact Hfin.
  all: try rewrite (Hq eq_refl).
  all: destruct success; py_go; cbn; lia.
Qed.

Lemma workers_drain results : ∀ w,
  consistent w →
  outstanding w ≤ length results →
  outstanding (exec (worker_returns <$> results) w) = 0.
Proof.
  induction results as [|success results IH]; intros w Hw Hlen.
  - cbn in Hlen. change (outstanding w = 0). lia.
  - rewrite fmap_cons, exec_cons. cbn in Hlen. apply IH; [by apply step_consistent|].
    pose proof (step_outstanding success w Hw). lia.
Qed.

Lemma idle_when_nothing_outstanding w :
  outstanding w = 0 → QThreadPool.idle (workers_pool (self w)) = true.
Proof.
  unfold outstanding, pending, QThreadPool.idle.
  destruct (QThreadPool.active _), (QThreadPool.queue _); cbn; intros; done || lia.
Qed.

Lemma idle_is_not_in_flight w :
  QThreadPool.idle (workers_pool (self w)) = true → in_flight w = None.
Proof.
  unfold QThreadPool.idle, in_flight. destruct (finishing w); [done|].
  by destruct (QThreadPool.active (workers_pool (self w))).
Qed.

(** X8: Whatever the results of the actions are, once as many actions have
    returned as were running or waiting, the pool is idle; and once the
    creator's thread has handled what they have posted, no action is
    current and the pool is still idle. *)
Theorem pool_drains
    (args : option (list string)) (kwargs : option Kwargs) (from_startup : bool)
    (id_self : positive) (ls : list Label) (results : list bool) :
  let w := exec ls (__init__ args kwargs from_startup id_self) in
  let w' := exec (worker_returns <$> results) w in
  outstanding w ≤ length results →
  QThreadPool.idle (workers_pool (self w')) = true
  ∧ value currentAction (settle w') = Ok ""
  ∧ QThreadPool.idle (workers_pool (self (settle w'))) = true.
Proof.
  intros w w' Hlen.
  pose proof (reachable_consistent args kwargs from_startup id_self ls) as Hw.
  fold w in Hw.
  pose proof (workers_drain results w Hw Hlen) as Hzero. fold w' in Hzero.
  pose proof (exec_consistent (worker_returns <$> results) w Hw) as Hw'.
  fold w' in Hw'. clearbody w'. clear w Hw Hlen.
  pose proof (idle_when_nothing_outstanding w' Hzero) as Hidle.
  split; [exact Hidle|]. split.
  - rewrite settled_current_action by done.
    by rewrite (idle_is_not_in_flight w' Hidle).
  - by apply settle_delivers_all.
Qed.

(** X9: [run] with an action the project has never raises, emits nothing and
    leaves [currentAction] as it is.  When the thread is free, the new
    action gets it at once: nothing waits, and its [started] is posted
    behind what is posted already.  When a worker has the thread, the new
    one goes to the end of the queue and nothing is posted. *)
Theorem run_starts_or_queues
    (args : option (list string)) (kwargs : option Kwargs) (from_startup : bool)
    (id_self : positive) (ls : list Label) (action : string) (args' : list string) :
  let w := exec ls (__init__ args kwargs from_startup id_self) in
  let w' := step (call_run action args') w in
  let worker := {| action_name := action; action_args := args' |} in
  hasattr (project (self w)) action = true →
  value (run action args') w = Ok tt
  ∧ emitted w' = emitted w
  ∧ value currentAction w' = value currentAction w
  ∧ match QThreadPool.active (workers_pool (self w)) with
    | [] =>
        in_flight w' = Some worker
        ∧ pending w' = []
        ∧ posted w' = posted w ++ [posted_started worker]
    | _ :: _ =>
        in_flight w' = in_flight w
        ∧ pending w' = pending w ++ [worker]
        ∧ posted w' = posted w
    end.
Proof.
  intros w w' worker Hhas. subst w' worker.
  destruct (reachable_consistent args kwargs from_startup id_self ls)
    as [Hmax Hact Hq Hfin _ _].
  fold w in Hmax, Hact, Hq, Hfin, Hhas. clearbody w.
  unfold in_flight, pending in *.
  open_world w Hact Hfin.
  all: py_cbv; unfold hasattr in Hhas; rewrite Hhas; py_go.
  all: rewrite ?(Hq eq_refl); repeat split.
Qed.

Lemma refreshed_app sigs more :
  refreshed (sigs ++ more) = foldl refresh (refreshed sigs) more.
Proof. unfold refreshed. apply foldl_app. Qed.

Lemma step_refreshed l w :
  consistent w →
  refreshed (signals w) = settled → refreshed (signals (step l w)) = settled.
Proof.
  intros [Hmax Hact Hq Hfin _ _] Hsettled. unfold signals, in_flight, pending in *.
  open_world w Hact Hfin.
  all: destruct l; py_go; try exact Hsettled.
  all: rewrite ?fmap_app, ?refreshed_app, ?Hsettled; cbn; rewrite ?Hsettled; reflexivity.
Qed.

(** X10: Every [actionFinished] an item emits has [stateChanged] and then
    [stageChanged] right behind it, as [run] connects them to the worker:
    the signals of an item never stop between a finish and its two
    change signals, and never skip or swap them. *)
Theorem finish_is_followed_by_refresh
    (args : option (list string)) (kwargs : option Kwargs) (from_startup : bool)
    (id_self : positive) (ls : list Label) :
  refreshed (signals (exec ls (__init__ args kwargs from_startup id_self))) = settled.
Proof.
  apply (exec_invariant (λ w, consistent w ∧ refreshed (signals w) = settled)).
  - split; [apply init_consistent | reflexivity].
  - intros l w [Hc Hr]. split; [by apply step_consistent | by apply step_refreshed].
Qed.

Lemma workers_leave_at_exit results : ∀ w,
  exit_handler (exec (worker_returns <$> results) w) = exit_handler w.
Proof.
  induction results as [|success results IH]; intros w; [reflexivity|].
  rewrite fmap_cons, exec_cons, IH.
  apply (at_exit_not_by_the_class (worker_returns success) w).
Qed.

(** X11: Once the finalizer is registered and alive, calling it, letting the
    outstanding actions return and the wait on the pool end takes [at_exit]
    to its end: the relay is stopped and joined and the final record, with
    the registered name, is logged. *)
Theorem at_exit_completes
    (args : option (list string)) (kwargs : option Kwargs) (from_startup : bool)
    (id_self : positive) (ls : list Label) (results : list bool) (n : string) :
  let w := exec ls (__init__ args kwargs from_startup id_self) in
  let w' := exec (finalizer_called :: (worker_returns <$> results)
                    ++ [waitForDone_returns]) w in
  _finalizer (self w) = Some {| alive := true; finalize_name := n |} →
  outstanding w ≤ length results →
  exit_handler w' = exit_returned
  ∧ at_exit_calls w'
    = [waitForDone (-1); stopped_set; thread_wait;
       module_logger_info ("destroyed " ++ n)]
  ∧ stopped (logging_worker (self w')) = true
  ∧ thread_finished (logging_worker (self w')) = true.
Proof.
  intros w w' Halive Hlen.
  pose proof (reachable_consistent args kwargs from_startup id_self ls) as Hc.
  pose proof (reachable_teardown args kwargs from_startup id_self
    (ls ++ finalizer_called :: (worker_returns <$> results))) as Htd.
  rewrite exec_app, exec_cons in Htd. fold w in Hc, Htd.
  assert (Hw' : w' = step waitForDone_returns
                       (exec (worker_returns <$> results) (step finalizer_called w))).
  { subst w'. rewrite exec_cons, exec_app. reflexivity. }
  assert (H1 : outstanding (step finalizer_called w) = outstanding w
               ∧ exit_handler (step finalizer_called w) = exit_waiting n).
  { clearbody w. clear -Halive. unfold outstanding, pending.
    destruct w as [[? ? [? ? ? ?] ? ? ? ? ? ? ? ?] ? ? ? ? ? ?]; cbn in *. subst.
    py_go. split; reflexivity. }
  destruct H1 as [Hout1 Hexit1].
  pose proof (step_consistent finalizer_called w Hc) as Hc1.
  pose proof (workers_drain results _ Hc1 ltac:(lia)) as Hzero.
  apply idle_when_nothing_outstanding in Hzero.
  pose proof (workers_leave_at_exit results (step finalizer_called w)) as Hexit2.
  rewrite Hexit1 in Hexit2.
  rewrite Hw'. clear Hw' w'.
  set (w2 := exec (worker_returns <$> results) (step finalizer_called w)) in *.
  clearbody w2. clear -Htd Hzero Hexit2.
  unfold teardown, at_exit_calls in *.
  destruct w2 as [[? ? [? ? act qu] ? ? ? ? ? ? ? ?] ? ? it ? ? ?]; cbn in *. subst.
  destruct act, qu; try discriminate Hzero.
  destruct it; [contradiction|..]; destruct Htd as (_ & _ & Hcalls).
  all: py_go; rewrite !omap_app, Hcalls; repeat split.
Qed.

Lemma step_current_stage (p : Stm32pio) l w :
  match init_thread w with
  | init_scheduled _ _ => False
  | _ => project (self w) = Some p
  end →
  match init_thread (step l w) with
  | init_scheduled _ _ => False
  | _ => project (self (step l w)) = Some p
  end
  ∧ _current_stage (self (step l w))
    = latest_stage [l] (_current_stage (self w)).
Proof.
  unfold latest_stage.
  by_step l w Hframe; try (rewrite Hframe; intros Hw; split; [exact Hw | reflexivity]).
  all: destruct w as [[? ? [? ? ? ?] ? ? pr ? ? ? ? ?] ? ? it ? ? ?]; cbn.
  all: intros Hw; destruct it; try contradiction; subst.
  all: py_go; split; reflexivity.
Qed.

Lemma exec_current_stage (p : Stm32pio) later : ∀ w,
  match init_thread w with
  | init_scheduled _ _ => False
  | _ => project (self w) = Some p
  end →
  _current_stage (self (exec later w))
  = latest_stage later (_current_stage (self w)).
Proof.
  induction later as [|l later IH]; intros w Hp; [reflexivity|].
  rewrite exec_cons. destruct (step_current_stage p l w Hp) as [Hp' Hstage].
  rewrite (IH _ Hp'), Hstage. reflexivity.
Qed.

(** X13: With a project, what [currentStage] returns is the stage of the latest
    [state] request, however long ago and whatever the actions did since,
    and ["Initialized"] as long as [state] has not been requested. *)
Theorem current_stage_is_of_latest_state_request
    (args : option (list string)) (kwargs : option Kwargs) (from_startup : bool)
    (id_self : positive) (before later : list Label)
    (a : list string) (k : Kwargs) (p : Stm32pio) :
  let w1 := exec before (__init__ args kwargs from_startup id_self) in
  let w := exec later (step (thread_init (Some p)) w1) in
  init_thread w1 = init_scheduled a k →
  value currentStage w = Ok (latest_stage later "Initialized").
Proof.
  intros w1 w Hsched. subst w.
  assert (Hstart :
    match init_thread (step (thread_init (Some p)) w1) with
    | init_scheduled _ _ => False
    | _ => project (self (step (thread_init (Some p)) w1)) = Some p
    end
    ∧ _current_stage (self (step (thread_init (Some p)) w1)) = "Initialized").
  { clearbody w1.
    destruct w1 as [[? ? [? ? ? ?] ? ? ? ? ? ? ? ?] ? ? ? ? ? ?]; cbn in *.
    rewrite Hsched. py_go; split; reflexivity. }
  destruct Hstart as [Hp Hstage].
  change (Ok (_current_stage (self (exec later (step (thread_init (Some p)) w1))))
          = Ok (latest_stage later "Initialized")).
  by rewrite (exec_current_stage p later _ Hp), Hstage.
Qed.

End Wrapper.

(** * The settings *)

(** X14: No answer counts both as a yes and as a no or a none; but two answers
    count both as a no and as a none: [no] and [0]. *)
Theorem answers_overlap_only_between_no_and_none :
  Forall (λ answer, (answer ∉ Settings.no_options) ∧ (answer ∉ Settings.none_options))
    Settings.yes_options
  ∧ filter (λ answer, answer ∈ Settings.none_options) Settings.no_options
    = ["no"; "0"].
Proof. split; [|reflexivity]. repeat constructor; compute_done. Qed.


(** * The scenario, run *)

Import Scenario.

(** Two actions submitted in a row, both succeeding: the signals of the
    second follow those of the first, once the creator's thread has
    handled them. *)
Example build_then_clean :
  let w := exec [call_run "build" []; call_run "clean" []; main_thread_delivers;
                 worker_returns true; worker_returns true] ready in
  signals w
  = [initialized; nameChanged; stageChanged; stateChanged; actionStarted "build"]
  ∧ value currentAction w = Ok "build"
  ∧ QThreadPool.idle (workers_pool (self w)) = true
  ∧ signals (settle w)
    = [initialized; nameChanged; stageChanged; stateChanged;
       actionStarted "build"; actionFinished "build" true; stateChanged; stageChanged;
       actionStarted "clean"; actionFinished "clean" true; stateChanged; stageChanged]
  ∧ value currentAction (settle w) = Ok ""
  ∧ value lastActionSucceed (settle w) = Ok true.
Proof. vm_compute. repeat split. Qed.

(** The first of two actions fails and its worker keeps the thread until
    the creator's thread has handled the finish: the second is dropped
    from the queue and never starts. *)
Example build_fails_clean_dropped :
  let w := exec [call_run "build" []; call_run "clean" []; main_thread_delivers;
                 worker_reports false; main_thread_delivers;
                 worker_returns false] ready in
  signals w
  = [initialized; nameChanged; stageChanged; stateChanged;
     actionStarted "build"; actionFinished "build" false; stateChanged; stageChanged]
  ∧ posted w = []
  ∧ QThreadPool.idle (workers_pool (self w)) = true
  ∧ value currentAction w = Ok ""
  ∧ value lastActionSucceed w = Ok false.
Proof. vm_compute. repeat split. Qed.

(** The first of three actions fails and its worker returns at once.  The
    pool thread takes the second from the queue before the creator's
    thread gets to the finish; when it does, it empties the queue, which
    by then holds the third only: the second runs, the third is
    dropped. *)
Example build_fails_next_starts :
  let w := exec [call_run "build" []; call_run "clean" [];
                 call_run "generate_code" []; worker_returns false] ready in
  in_flight w = Some {| action_name := "clean"; action_args := [] |}
  ∧ pending w = [{| action_name := "generate_code"; action_args := [] |}]
  ∧ signals (settle w)
    = [initialized; nameChanged; stageChanged; stateChanged;
       actionStarted "build"; actionFinished "build" false; stateChanged; stageChanged;
       actionStarted "clean"]
  ∧ in_flight (settle w) = Some {| action_name := "clean"; action_args := [] |}
  ∧ pending (settle w) = []
  ∧ value lastActionSucceed (settle w) = Ok false.
Proof. vm_compute. repeat split. Qed.

(** The stage is stale until [state] is read again. *)
Example stage_follows_state_query :
  value currentStage ready = Ok "Initialized"
  ∧ value currentStage
      (settle (exec [call_run "generate_code" []; worker_returns true] ready))
    = Ok "Initialized"
  ∧ value currentStage (step (get_state generated) ready) = Ok "Generated".
Proof. vm_compute. repeat split. Qed.

(** An action can be submitted, and is announced, before the front end
    has loaded: the handshake holds back the init signals only. *)
Example action_before_handshake :
  signals (exec [thread_init (Some blinky); call_run "build" [];
                 main_thread_delivers] fresh)
  = [actionStarted "build"].
Proof. reflexivity. Qed.

(** The item whose constructor raised keeps its path as its name. *)
Lemma construction_failure_stays_witness :
  init_thread (exec [call_qmlLoaded] fresh)
  = init_scheduled ["/home/user/blinky"] logger_only
  ∧ value name (exec [thread_init_resumes; call_run "build" []; get_state generated]
                  (step (thread_init None) (exec [call_qmlLoaded] fresh)))
    = Ok "/home/user/blinky".
Proof.
  split; [reflexivity|].
  exact (proj2 (proj2 (proj2 (proj2
    (construction_failure_stays (Some ["/home/user/blinky"]) None false 1
       [call_qmlLoaded]
       [thread_init_resumes; call_run "build" []; get_state generated]
       ["/home/user/blinky"] logger_only eq_refl))))).
Defined.

(** The ready item, asked for its state after code generation. *)
Lemma state_leaves_UNDEFINED_out_witness :
  project (self ready) = Some blinky
  ∧ ∃ m, value (state generated) ready = Ok m
         ∧ m !! "UNDEFINED" = None
         ∧ m !! "GENERATED" = Some true.
Proof.
  split; [reflexivity|].
  generalize (state_leaves_UNDEFINED_out ready blinky generated eq_refl).
  destruct (value (state generated) ready) as [m|e].
  - intros (Hundef & _ & Hrest & _). exists m.
    split; [reflexivity|]. split; [exact Hundef|].
    exact (Hrest Generated ltac:(discriminate)).
  - intros [_ Hnone]. discriminate Hnone.
Defined.

(** On the ready item nothing the class offers enters [at_exit]; the
    finalizer being called does. *)
Lemma at_exit_waits_for_the_finalizer :
  (∀ l : Label,
      l ≠ finalizer_called →
      exit_handler (step l ready) = exit_pending
      ∧ at_exit_calls (step l ready) = [])
  ∧ exit_handler (step finalizer_called ready)
    = exit_waiting "Stm32pio project: /home/user/blinky"
  ∧ at_exit_calls (step finalizer_called ready) = [waitForDone (-1)].
Proof.
  split; [|split; reflexivity].
  intros l Hl. pose proof (at_exit_not_by_the_class l ready) as Hsame.
  destruct l;
    lazymatch type of Hsame with
    | True => first [contradiction | split; reflexivity]
    | _ => destruct Hsame as [Hhandler Hcalls]; rewrite Hhandler, Hcalls;
           split; reflexivity
    end.
Qed.

(** An action submitted on the ready item runs at once, while
    [currentAction] is still empty and no [actionStarted] has been
    emitted; both follow when the creator's thread handles the posted
    signal. *)
Lemma action_runs_before_it_is_current :
  let w := step (call_run "build" []) ready in
  in_flight w = Some {| action_name := "build"; action_args := [] |}
  ∧ value currentAction w = Ok ""
  ∧ signals w = [initialized; nameChanged; stageChanged; stateChanged]
  ∧ posted w = [posted_started {| action_name := "build"; action_args := [] |}]
  ∧ value currentAction (step main_thread_delivers w) = Ok "build"
  ∧ signals (step main_thread_delivers w)
    = [initialized; nameChanged; stageChanged; stateChanged; actionStarted "build"].
Proof. vm_compute. repeat split. Qed.

(** While the item is loading, and after the constructor has raised, the
    [state] property raises nothing and answers with the pseudo-state; and
    an item that has been disposed of takes an action and runs it. *)
Lemma misuse_is_not_rejected :
  raised (value (state generated) fresh) = false
  ∧ value (state generated) fresh = Ok {[ "LOADING" := true ]}
  ∧ raised (value (state generated) broken) = false
  ∧ value (state generated) broken = Ok {[ "INIT_ERROR" := true ]}
  ∧ let disposed := exec [finalizer_called; waitForDone_returns] ready in
    exit_handler disposed = exit_returned
    ∧ at_exit_calls disposed
      = [waitForDone (-1); stopped_set; thread_wait;
         module_logger_info "destroyed Stm32pio project: /home/user/blinky"]
    ∧ raised (value (run "build" []) disposed) = false
    ∧ value (run "build" []) disposed = Ok tt
    ∧ in_flight (step (call_run "build" []) disposed)
      = Some {| action_name := "build"; action_args := [] |}.
Proof. vm_compute. repeat split. Qed.

(** Submitting while loading raises for an action [None] does not have:
    nothing is queued or posted. *)
Example run_without_project :
  value (run "build" []) fresh = Raise (AttributeError "build")
  ∧ step (call_run "build" []) fresh = fresh.
Proof. repeat split. Qed.

(** The item whose constructor returned keeps the project. *)
Lemma construction_success_stays_witness :
  init_thread (exec [call_qmlLoaded] fresh)
  = init_scheduled ["/home/user/blinky"] logger_only
  ∧ value name (exec [thread_init_resumes; call_run "build" []; worker_returns false]
                  (step (thread_init (Some blinky)) (exec [call_qmlLoaded] fresh)))
    = Ok "blinky".
Proof.
  split; [reflexivity|].
  exact (proj1 (proj2
    (construction_success_stays (Some ["/home/user/blinky"]) None false 1
       [call_qmlLoaded]
       [thread_init_resumes; call_run "build" []; worker_returns false]
       ["/home/user/blinky"] logger_only blinky eq_refl))).
Defined.

(** Three actions submitted, the second fails: three returns are enough. *)
Lemma pool_drains_witness :
  let w :=
    exec [thread_init (Some blinky); call_qmlLoaded; thread_init_resumes;
          call_run "generate_code" []; call_run "build" []; call_run "clean" []]
      (__init__ (Some ["/home/user/blinky"]) None false 1) in
  outstanding w ≤ length [true; false; true]
  ∧ QThreadPool.idle
      (workers_pool (self (exec (worker_returns <$> [true; false; true]) w))) = true.
Proof.
  assert (Hlen :
    outstanding
      (exec [thread_init (Some blinky); call_qmlLoaded; thread_init_resumes;
             call_run "generate_code" []; call_run "build" []; call_run "clean" []]
         (__init__ (Some ["/home/user/blinky"]) None false 1))
    ≤ length [true; false; true]).
  { vm_compute. constructor. }
  split; [exact Hlen|].
  exact (proj1
    (pool_drains (Some ["/home/user/blinky"]) None false 1
       [thread_init (Some blinky); call_qmlLoaded; thread_init_resumes;
        call_run "generate_code" []; call_run "build" []; call_run "clean" []]
       [true; false; true] Hlen)).
Defined.

(** A second action submitted while the first runs waits in the queue. *)
Lemma run_starts_or_queues_witness :
  let w :=
    exec [thread_init (Some blinky); call_qmlLoaded; thread_init_resumes;
          call_run "build" []]
      (__init__ (Some ["/home/user/blinky"]) None false 1) in
  hasattr (project (self w)) "clean" = true
  ∧ in_flight w = Some {| action_name := "build"; action_args := [] |}
  ∧ emitted (step (call_run "clean" []) w) = emitted w.
Proof.
  assert (Hhas :
    hasattr
      (project (self
         (exec [thread_init (Some blinky); call_qmlLoaded; thread_init_resumes;
                call_run "build" []]
            (__init__ (Some ["/home/user/blinky"]) None false 1))))
      "clean" = true).
  { vm_compute. reflexivity. }
  split; [exact Hhas|]. split; [vm_compute; reflexivity|].
  exact (proj1 (proj2
    (run_starts_or_queues (Some ["/home/user/blinky"]) None false 1
       [thread_init (Some blinky); call_qmlLoaded; thread_init_resumes;
        call_run "build" []] "clean" [] Hhas))).
Defined.

(** The ready item with one action running, torn down. *)
Lemma at_exit_completes_witness :
  let w :=
    exec [thread_init (Some blinky); call_qmlLoaded; thread_init_resumes;
          call_run "build" []]
      (__init__ (Some ["/home/user/blinky"]) None false 1) in
  _finalizer (self w)
  = Some {| alive := true; finalize_name := "Stm32pio project: /home/user/blinky" |}
  ∧ outstanding w ≤ length [true]
  ∧ exit_handler
      (exec (finalizer_called :: (worker_returns <$> [true]) ++ [waitForDone_returns]) w)
    = exit_returned.
Proof.
  assert (Halive :
    _finalizer (self
      (exec [thread_init (Some blinky); call_qmlLoaded; thread_init_resumes;
             call_run "build" []]
         (__init__ (Some ["/home/user/blinky"]) None false 1)))
    = Some {| alive := true;
              finalize_name := "Stm32pio project: /home/user/blinky" |}).
  { vm_compute. reflexivity. }
  assert (Hlen :
    outstanding
      (exec [thread_init (Some blinky); call_qmlLoaded; thread_init_resumes;
             call_run "build" []]
         (__init__ (Some ["/home/user/blinky"]) None false 1))
    ≤ length [true]).
  { vm_compute. constructor. }
  split; [exact Halive|]. split; [exact Hlen|].
  exact (proj1
    (at_exit_completes (Some ["/home/user/blinky"]) None false 1
       [thread_init (Some blinky); call_qmlLoaded; thread_init_resumes;
        call_run "build" []] [true] "Stm32pio project: /home/user/blinky"
       Halive Hlen)).
Defined.

(** A CI server with a cache folder and a test case whose lock file
    exists. *)
Example settings_with_lockfile :
  let env :=
    {| Settings.system := "Linux";
       Settings.home := "/home/ci";
       Settings.settings_dir := "/src/stm32pio/core";
       Settings.PIPELINE_WORKSPACE := Some "/agent/1";
       Settings.STM32PIO_CUBEMX_CACHE_FOLDER := Some "/cache";
       Settings.STM32PIO_TEST_FIXTURES := None;
       Settings.STM32PIO_TEST_CASE := Some "nucleo_f031k6";
       Settings.joined := λ a b, a +:+ "/" +:+ b;
       Settings.path_exists := λ path, Some true;
       Settings.read_text := λ path, Some "[env:nucleo_f031k6]" |} in
  Settings.patch_mixin env
  = inr (Settings.LF +:+ Settings.LF +:+ "[env:nucleo_f031k6]")
  ∧ match Settings.imported env with
    | inr config =>
        Settings.app config !! "cubemx_cmd" = Some "/cache/STM32CubeMX.exe"
        ∧ Settings.project config !! "inspect_ioc" = Some (Settings.Flag true)
    | inl _ => False
    end.
Proof. vm_compute. repeat split. Qed.

(** The same server when a directory stands where the lock file should
    be: the import dies in [read_text]. *)
Example settings_with_unreadable_lockfile :
  let env :=
    {| Settings.system := "Linux";
       Settings.home := "/home/ci";
       Settings.settings_dir := "/src/stm32pio/core";
       Settings.PIPELINE_WORKSPACE := Some "/agent/1";
       Settings.STM32PIO_CUBEMX_CACHE_FOLDER := Some "/cache";
       Settings.STM32PIO_TEST_FIXTURES := Some "/fixtures";
       Settings.STM32PIO_TEST_CASE := Some "nucleo_f031k6";
       Settings.joined := λ a b, a +:+ "/" +:+ b;
       Settings.path_exists := λ path, Some true;
       Settings.read_text := λ path, None |} in
  Settings.imported env
  = inl (Settings.PathError "/fixtures/nucleo_f031k6/platformio.ini.lockfile").
Proof. reflexivity. Qed.

(** The stage of the ready item follows the latest of two requests. *)
Lemma current_stage_is_of_latest_state_request_witness :
  init_thread (exec [call_qmlLoaded] fresh)
  = init_scheduled ["/home/user/blinky"] logger_only
  ∧ value currentStage
      (exec [get_state generated; call_run "build" []; worker_returns true]
         (step (thread_init (Some blinky)) (exec [call_qmlLoaded] fresh)))
    = Ok "Generated".
Proof.
  split; [reflexivity|].
  exact (current_stage_is_of_latest_state_request (Some ["/home/user/blinky"]) None
           false 1 [call_qmlLoaded]
           [get_state generated; call_run "build" []; worker_returns true]
           ["/home/user/blinky"] logger_only blinky eq_refl).
Defined.
